(** * parquet2jsonl: the value normalizer, the row emitter, the batch driver

    A shallow embedding of [src/parquet2jsonl.py] and the properties the
    specification states about it.

    The Python function [convert_arrow_value_to_python] dispatches on the
    run-time class of its argument.  The embedding follows that dispatch:
    native Python objects are the type [pyval]; the PyArrow objects the
    function tests for with [isinstance] are the other constructors of
    [value], each carrying what the function reads from the object.
    Exceptions are results in an error monad; the output files are a
    finite map from paths to contents.

    The function is modelled twice: on values, where most properties are
    stated, and on a store of objects held by reference, where a [dict]
    is changed in place; the second model is proved to do what the first
    does and to change no object it did not create. *)

From Stdlib Require Import ZArith String Ascii DecimalString DecimalPos DecimalZ.
From stdpp Require Import base option list strings gmap.

Set Warnings "-register-all".

Local Open Scope Z_scope.
Local Open Scope string_scope.
Local Open Scope list_scope.

(** ** Exceptions and the error monad *)

(** The exception classes the modelled code can raise: [items[i]] out of
    range is [IndexError], an unhashable [dict] key and a [json.dumps] key
    of an unsupported class are [TypeError], a field or column name that
    does not designate exactly one child is [KeyError]; [ArrowInvalid] and
    [OSError] are what reading a parquet file raises.  All are subclasses
    of [Exception]. *)
Inductive exn : Type :=
| IndexError
| TypeError
| KeyError
| ArrowInvalid
| OSError.

Inductive result (A : Type) : Type :=
| Ok (a : A)
| Raise (e : exn).
Arguments Ok {A} a.
Arguments Raise {A} e.

Definition bind {A B : Type} (m : result A) (k : A -> result B) : result B :=
  match m with
  | Ok a => k a
  | Raise e => Raise e
  end.

Notation "x <- m ;; k" := (bind m (fun x => k))
  (at level 100, m at next level, right associativity).

Section MapM.
Context {A B : Type}.
Variable f : A -> result B.

Fixpoint mapM (l : list A) : result (list B) :=
  match l with
  | [] => Ok []
  | x :: l' => y <- f x ;; ys <- mapM l' ;; Ok (y :: ys)
  end.
End MapM.

(** ** Native Python objects *)

(** [PObj s] stands for an object of any other hashable class that the
    function returns as it is ([bytes], [date], [datetime], ...); it is
    represented by the text [str()] gives for it, and two such objects are
    equal exactly when these texts are.  Floating-point numbers are not
    modelled. *)
Inductive pyval : Type :=
| PNone
| PBool (b : bool)
| PInt (n : Z)
| PStr (s : string)
| PObj (str : string)
| PTuple (elts : list pyval)
| PList (elts : list pyval)
| PDict (entries : list (pyval * pyval)).

(** A [dict] is the list of its entries in insertion order. *)
Abbreviation dict := (list (pyval * pyval)).

(** [hash(k)] succeeds: lists and dicts, and tuples holding one, are
    unhashable. *)
Fixpoint hashable (k : pyval) : bool :=
  match k with
  | PList _ | PDict _ => false
  | PTuple elts => forallb hashable elts
  | _ => true
  end.

(** [a == b] on [dict] keys.  [True == 1] and [False == 0] hold in Python
    (and the hashes agree), so a [bool] and an [int] key can collide. *)
Fixpoint key_eqb (a b : pyval) {struct a} : bool :=
  match a, b with
  | PNone, PNone => true
  | PBool x, PBool y => Bool.eqb x y
  | PBool x, PInt n | PInt n, PBool x => Z.eqb (Z.b2z x) n
  | PInt m, PInt n => Z.eqb m n
  | PStr s, PStr t => String.eqb s t
  | PObj s, PObj t => String.eqb s t
  | PTuple xs, PTuple ys =>
      (fix go (xs ys : list pyval) {struct xs} : bool :=
         match xs, ys with
         | [], [] => true
         | x :: xs', y :: ys' => key_eqb x y && go xs' ys'
         | _, _ => false
         end) xs ys
  | _, _ => false
  end.

(** [d[k] = v] on a hashable key: an entry whose key equals [k] keeps its
    place and its key object and takes the new value; otherwise the entry
    is added at the end. *)
Fixpoint dict_store {V : Type} (d : list (pyval * V)) (k : pyval) (v : V)
  : list (pyval * V) :=
  match d with
  | [] => [(k, v)]
  | (k0, v0) :: d' =>
      if key_eqb k0 k then (k0, v) :: d' else (k0, v0) :: dict_store d' k v
  end.

(** [d[k] = v]: [TypeError: unhashable type] on a list or dict key. *)
Definition dict_setitem (d : dict) (k v : pyval) : result dict :=
  if hashable k then Ok (dict_store d k v) else Raise TypeError.

(** [d.get(k)]. *)
Fixpoint dict_get (d : dict) (k : pyval) : option pyval :=
  match d with
  | [] => None
  | (k0, v0) :: d' => if key_eqb k0 k then Some v0 else dict_get d' k
  end.

(** [l[i]] for [i >= 0]: [IndexError] out of range. *)
Definition getitem {A : Type} (l : list A) (i : nat) : result A :=
  match l !! i with
  | Some x => Ok x
  | None => Raise IndexError
  end.

(** ** PyArrow objects *)

(** What [convert_arrow_value_to_python] can be handed.  Each PyArrow
    class is represented by what the function reads from it:
    - [MapArray keys items]: a [pa.MapArray] with [keys] the list
      [value.keys.to_pylist()] and [items] the list
      [value.items.to_pylist()];
    - [ListArray pylist], [LargeListArray pylist]: [value.to_pylist()];
    - [StructArray fields]: the fields of [value.type] in schema order,
      each with its child ([value.field] looks a child up by name; what
      it returns for a [pa.StructArray] is a [pa.Array], see [is_Array]);
    - [Array elems]: a [pa.Array] of another class, [elems] being the
      [as_py()] of its element scalars, in order;
    - [Scalar as_py]: a [pa.Scalar] with the result of its [as_py()].
    [to_pylist()] and [as_py()] return native Python objects. *)
Inductive value : Type :=
| Py (v : pyval)
| MapArray (keys items : list pyval)
| ListArray (pylist : list pyval)
| LargeListArray (pylist : list pyval)
| StructArray (fields : list (string * value))
| Array (elems : list pyval)
| Scalar (as_py : pyval).

Definition is_None (value : value) : bool :=
  match value with
  | Py PNone => true
  | _ => false
  end.

Definition py_is_None (v : pyval) : bool :=
  match v with
  | PNone => true
  | _ => false
  end.


(** [value.field(name)] of a [pa.StructArray]: the child of the field of
    that name; [KeyError] when no field or more than one field has it.
    The table [children] pairs each field name with its child. *)
Definition field {A : Type} (children : list (string * A)) (name : string)
  : result A :=
  match filter (fun f => String.eqb f.1 name = true) children with
  | [f] => Ok f.2
  | _ => Raise KeyError
  end.

(** ** The normalizer *)

(** [convert_arrow_value_to_python] on a native Python object.  None of the
    [isinstance(value, pa.X)] tests holds of one, which leaves lines 22-23
    and 61-68 of the source. *)
Fixpoint convert_py (value : pyval) : pyval :=
  match value with
  | PNone => PNone                                              (* 22-23 *)
  | PDict entries =>                                            (* 61-62 *)
      PDict (map (fun kv => (kv.1, convert_py kv.2)) entries)
  | PList elts => PList (map convert_py elts)                   (* 64-65 *)
  | _ => value                                                  (* 68 *)
  end.

(** One round of the loop of lines 30-32.  Python evaluates the right-hand
    side [convert(items[i])] before the key of the subscript. *)
Definition map_step (keys items : list pyval) (acc : result dict) (i : nat)
  : result dict :=
  result <- acc ;;
  k <- getitem keys i ;;
  if py_is_None k then Ok result
  else
    item <- getitem items i ;;
    let v := convert_py item in
    dict_setitem result (convert_py k) v.

(** One round of the loop of lines 42-45; [children] holds, for each field,
    whether its child is [None] and the conversion of the child. *)
Definition struct_step (children : list (string * (bool * result pyval)))
    (acc : result dict) (name : string) : result dict :=
  result <- acc ;;
  field_value <- field children name ;;
  if field_value.1 then Ok result
  else
    v <- field_value.2 ;;
    dict_setitem result (PStr name) v.

Fixpoint convert_arrow_value_to_python (value : value) : result pyval :=
  match value with
  | Py v => Ok (convert_py v)                          (* 22-23, 61-68 *)
  | MapArray keys items =>                             (* 26-33 *)
      result <- fold_left (map_step keys items) (seq 0 (length keys)) (Ok []) ;;
      Ok (PDict result)
  | ListArray pylist | LargeListArray pylist =>        (* 36-37 *)
      Ok (PList (map convert_py pylist))
  | StructArray fields =>                              (* 40-46 *)
      let children :=
        map (fun f => (f.1, (is_None f.2, convert_arrow_value_to_python f.2)))
            fields in
      result <- fold_left (struct_step children) (map fst fields) (Ok []) ;;
      Ok (PDict result)
  | Array elems =>                                     (* 49-54 *)
      match elems with
      | [] => Ok PNone
      | [x] => Ok (convert_py x)
      | _ => Ok (PList (map convert_py elems))
      end
  | Scalar as_py => Ok (convert_py as_py)              (* 57-58 *)
  end.

(** ** Serialization: [json.dumps(row_dict, ensure_ascii=False, default=str)] *)

Definition DQUOTE : ascii := ascii_of_nat 34.
Definition BACKSLASH : ascii := ascii_of_nat 92.
Definition LF : string := String (ascii_of_nat 10) EmptyString.

(** [str(n)] of an [int]. *)
Definition int_str (n : Z) : string := NilZero.string_of_int (Z.to_int n).

Definition hex_digit (d : nat) : ascii :=
  if (d <? 10)%nat then ascii_of_nat (48 + d) else ascii_of_nat (87 + d).

(** [ESCAPE_DCT] of [json.encoder]: the quote, the backslash and the
    characters below 0x20; every other character, non-ASCII included
    ([ensure_ascii=False]), goes out unchanged. *)
Definition escape_char (c : ascii) : string :=
  let n := nat_of_ascii c in
  let esc (x : ascii) := String BACKSLASH (String x EmptyString) in
  if (n =? 34)%nat then esc DQUOTE
  else if (n =? 92)%nat then esc BACKSLASH
  else if (n =? 8)%nat then esc "b"%char
  else if (n =? 12)%nat then esc "f"%char
  else if (n =? 10)%nat then esc "n"%char
  else if (n =? 13)%nat then esc "r"%char
  else if (n =? 9)%nat then esc "t"%char
  else if (n <? 32)%nat then
    String BACKSLASH
      (String "u" (String "0" (String "0"
         (String (hex_digit (n / 16)) (String (hex_digit (n mod 16)) EmptyString)))))
  else String c EmptyString.

Fixpoint escape (s : string) : string :=
  match s with
  | EmptyString => EmptyString
  | String c s' => escape_char c +:+ escape s'
  end.

(** [encode_basestring]: a JSON string literal. *)
Definition encode_basestring (s : string) : string :=
  String DQUOTE (escape s +:+ String DQUOTE EmptyString).

(** [sep.join(chunks)]. *)
Fixpoint join (sep : string) (chunks : list string) : string :=
  match chunks with
  | [] => EmptyString
  | [c] => c
  | c :: rest => c +:+ sep +:+ join sep rest
  end.

(** The text a [dict] key is written as: a [str] as it is; [int], [bool]
    and [None] keys are coerced; any other key is
    [TypeError: keys must be str, int, float, bool or None] ([default] is
    not consulted for keys). *)
Definition json_key (k : pyval) : result string :=
  match k with
  | PStr s => Ok s
  | PNone => Ok "null"
  | PBool true => Ok "true"
  | PBool false => Ok "false"
  | PInt n => Ok (int_str n)
  | _ => Raise TypeError
  end.

(** [json.dumps] with the default separators [", "] and [": "].  A tuple is
    written as an array; an object of another class goes through
    [default=str] and is written as the string [str(o)]. *)
Fixpoint json_dumps (o : pyval) : result string :=
  match o with
  | PNone => Ok "null"
  | PBool true => Ok "true"
  | PBool false => Ok "false"
  | PInt n => Ok (int_str n)
  | PStr s => Ok (encode_basestring s)
  | PObj str => Ok (encode_basestring str)
  | PTuple elts | PList elts =>
      chunks <- mapM json_dumps elts ;;
      Ok ("[" +:+ join ", " chunks +:+ "]")
  | PDict entries =>
      chunks <- mapM (fun kv =>
                        k <- json_key kv.1 ;;
                        v <- json_dumps kv.2 ;;
                        Ok (encode_basestring k +:+ ": " +:+ v))
                     entries ;;
      Ok ("{" +:+ join ", " chunks +:+ "}")
  end.

(** ** The table handed over by the parquet reader *)

(** The logical content of an Arrow cell.  The cells modelled are nulls,
    booleans, integers, strings, and lists and maps of these: for them
    [as_py()] returns.  Cells of other types (timestamps, decimals,
    structs, ...), for some of which [as_py()] can raise, are not
    modelled. *)
Inductive arrow_data : Type :=
| ANull
| ABool (b : bool)
| AInt (n : Z)
| AString (s : string)
| AList (elts : list arrow_data)
| AMap (pairs : list (arrow_data * arrow_data)).

(** [scalar.as_py()] as PyArrow documents it: a null is [None], a list
    scalar a Python list and, the call being made without
    [maps_as_pydicts], a map scalar the association list of its
    [(key, value)] tuples in the order of the Arrow map. *)
Fixpoint as_py (a : arrow_data) : pyval :=
  match a with
  | ANull => PNone
  | ABool b => PBool b
  | AInt n => PInt n
  | AString s => PStr s
  | AList elts => PList (map as_py elts)
  | AMap pairs => PList (map (fun kv => PTuple [as_py kv.1; as_py kv.2]) pairs)
  end.

(** A [pa.Table]: the column names of its schema and one chunked array of
    cells for each. *)
Record Table : Type := {
  column_names : list string;
  columns : list (list arrow_data);
  num_rows : nat
}.

(** [table[col_name]]: [KeyError] unless exactly one column has the name. *)
Definition table_getitem (table : Table) (col_name : string)
  : result (list arrow_data) :=
  field (zip (column_names table) (columns table)) col_name.

(** [col[i]] on a chunked array: the scalar of cell [i]. *)
Definition chunked_getitem (col : list arrow_data) (i : nat) : result value :=
  cell <- getitem col i ;; Ok (Scalar (as_py cell)).

(** ** The row emitter *)

(** Lines 92-98 for one column. *)
Definition row_cell (table : Table) (i : nat) (acc : result dict)
    (col_name : string) : result dict :=
  row_dict <- acc ;;
  col <- table_getitem table col_name ;;
  value <- chunked_getitem col i ;;
  python_value <- convert_arrow_value_to_python value ;;
  dict_setitem row_dict (PStr col_name) python_value.

(** Lines 91-102: the text written for row [i]. *)
Definition row_line (table : Table) (i : nat) : result string :=
  row_dict <- fold_left (row_cell table i) (column_names table) (Ok []) ;;
  json_line <- json_dumps (PDict row_dict) ;;
  Ok (json_line +:+ LF).

(** The loop of line 90 over the open file, whose content so far is [f]:
    each row is written as soon as it is built, and an exception leaves
    what was written before it. *)
Fixpoint write_rows (table : Table) (rows : list nat) (f : string)
  : string * result unit :=
  match rows with
  | [] => (f, Ok tt)
  | i :: rest =>
      match row_line table i with
      | Ok line => write_rows table rest (f +:+ line)
      | Raise e => (f, Raise e)
      end
  end.

(** A parquet file of the input directory: the stem of its name and what
    [pq.ParquetFile(path).read()] gives for it. *)
Record ParquetFile : Type := {
  stem : string;
  read : result Table
}.

(** [convert_parquet_to_jsonl].  [fs] maps the path of each output file to
    its content.  The table is read before the output file is opened;
    [open(jsonl_file, 'w')] truncates. *)
Definition convert_parquet_to_jsonl (parquet_file : ParquetFile)
    (jsonl_file : string) (fs : gmap string string)
  : gmap string string * result nat :=
  match read parquet_file with
  | Raise e => (fs, Raise e)
  | Ok table =>
      let out := write_rows table (seq 0 (num_rows table)) EmptyString in
      (<[jsonl_file := out.1]> fs, (_ <- out.2 ;; Ok (num_rows table)))
  end.

(** ** The batch driver *)

Record driver_state : Type := {
  files : gmap string string;
  total_rows : nat;
  stderr : list (string * exn)
}.

(** [output_dir / f"{parquet_file.stem}.jsonl"]. *)
Definition jsonl_path (output_dir : string) (parquet_file : ParquetFile)
  : string :=
  output_dir +:+ "/" +:+ stem parquet_file +:+ ".jsonl".

(** The body of the loop of lines 132-141.  The handler is
    [except Exception]; it reports the file on [stderr] and goes on. *)
Definition convert_one (output_dir : string) (st : driver_state)
    (parquet_file : ParquetFile) : driver_state :=
  let jsonl_file := jsonl_path output_dir parquet_file in
  let out := convert_parquet_to_jsonl parquet_file jsonl_file (files st) in
  match out.2 with
  | Ok rows =>
      {| files := out.1; total_rows := (total_rows st + rows)%nat;
         stderr := stderr st |}
  | Raise e =>
      {| files := out.1; total_rows := total_rows st;
         stderr := stderr st ++ [(stem parquet_file, e)] |}
  end.

(** [convert_all_parquet_files] on the sorted list of the parquet files of
    the input directory. *)
Definition convert_all_parquet_files (parquet_files : list ParquetFile)
    (output_dir : string) (fs : gmap string string) : driver_state :=
  fold_left (convert_one output_dir) parquet_files
            {| files := fs; total_rows := 0%nat; stderr := [] |}.

(** ** Induction on native objects *)

Section PyvalInduction.
Variable P : pyval -> Prop.
Hypothesis HNone : P PNone.
Hypothesis HBool : forall b, P (PBool b).
Hypothesis HInt : forall n, P (PInt n).
Hypothesis HStr : forall s, P (PStr s).
Hypothesis HObj : forall s, P (PObj s).
Hypothesis HTuple : forall elts, Forall P elts -> P (PTuple elts).
Hypothesis HList : forall elts, Forall P elts -> P (PList elts).
Hypothesis HDict :
  forall entries, Forall (fun kv => P kv.1 /\ P kv.2) entries ->
                  P (PDict entries).

Fixpoint pyval_nested_ind (v : pyval) : P v :=
  let all :=
    fix all (l : list pyval) : Forall P l :=
      match l with
      | [] => List.Forall_nil P
      | x :: l' => List.Forall_cons P x l' (pyval_nested_ind x) (all l')
      end in
  match v with
  | PNone => HNone
  | PBool b => HBool b
  | PInt n => HInt n
  | PStr s => HStr s
  | PObj s => HObj s
  | PTuple elts => HTuple elts (all elts)
  | PList elts => HList elts (all elts)
  | PDict entries =>
      HDict entries
        ((fix both (d : dict) : Forall (fun kv => P kv.1 /\ P kv.2) d :=
            match d with
            | [] => List.Forall_nil _
            | kv :: d' =>
                List.Forall_cons _ kv d'
                  (conj (pyval_nested_ind kv.1) (pyval_nested_ind kv.2))
                  (both d')
            end) entries)
  end.
End PyvalInduction.

(** ** Loops by recursion on their data *)

(** The loop of lines 30-32 by recursion on the keys: [items] runs along,
    and is only looked at under a key that is not [None].  The recursive
    calls on the key and on the item are calls on native objects, which
    give these objects back. *)
Fixpoint map_pairs (keys items : list pyval) (d : dict) : result dict :=
  match keys with
  | [] => Ok d
  | k :: keys' =>
      if py_is_None k then map_pairs keys' (tail items) d
      else
        match items with
        | [] => Raise IndexError
        | item :: items' =>
            r <- dict_setitem d k item ;;
            map_pairs keys' items' r
        end
  end.


(** The loop of lines 42-45 by recursion on the fields, each field taken
    with its own child (which [value.field] finds when no two fields share
    a name). *)
Fixpoint struct_fields (fields : list (string * value)) (d : dict)
  : result dict :=
  match fields with
  | [] => Ok d
  | f :: rest =>
      if is_None f.2 then struct_fields rest d
      else
        v <- convert_arrow_value_to_python f.2 ;;
        r <- dict_setitem d (PStr f.1) v ;;
        struct_fields rest r
  end.

(** The fields of a struct whose child is not [None]: those that the
    test of line 44 lets through, which are all of them when the
    children are arrays. *)
Definition present_fields (fields : list (string * value))
  : list (string * value) :=
  filter (fun f => is_None f.2 = false) fields.

(** ** The statements of the specification that the code does not meet *)

Definition is_Text (v : pyval) : bool :=
  match v with
  | PStr _ => true
  | _ => false
  end.

(** Every key of the Mapping produced for a Map is Text. *)
Definition map_keys_are_Text (keys items : list pyval) : Prop :=
  forall d, convert_arrow_value_to_python (MapArray keys items) = Ok (PDict d) ->
            Forall (fun kv => is_Text kv.1 = true) d.

(** A Map whose key and value sequences differ in length is rejected with
    an error. *)
Definition map_mismatch_rejected (keys items : list pyval) : Prop :=
  length keys <> length items ->
  exists e, convert_arrow_value_to_python (MapArray keys items) = Raise e.

(** ** Maps as the reader types them *)

(** The keys of an Arrow map have one type.  The classes below are those
    whose keys [json.dumps] writes as text. *)
Inductive key_class : Type :=
| KBool
| KInt
| KStr.

Definition class_of (k : pyval) : option key_class :=
  match k with
  | PBool _ => Some KBool
  | PInt _ => Some KInt
  | PStr _ => Some KStr
  | _ => None
  end.

(** Every key is a null or of the class [c]. *)
Definition keys_of_class (c : key_class) (keys : list pyval) : Prop :=
  Forall (fun k => k = PNone \/ class_of k = Some c) keys.

(** The key [k] is written as the text [t]. *)
Definition has_text (k : pyval) (t : string) : bool :=
  match json_key k with
  | Ok t' => String.eqb t' t
  | Raise _ => false
  end.

(** The values of the entries of [d] whose key is written as [t]. *)
Definition text_get (d : dict) (t : string) : list pyval :=
  map snd (filter (fun kv => has_text kv.1 t = true) d).

(** The value of the last pair of a map whose key is not a null and is
    written as [t]. *)
Fixpoint last_value (t : string) (pairs : list (pyval * pyval))
  : option pyval :=
  match pairs with
  | [] => None
  | kv :: rest =>
      match last_value t rest with
      | Some v => Some v
      | None =>
          if negb (py_is_None kv.1) && has_text kv.1 t then Some kv.2
          else None
      end
  end.

(** When the keys of two pairs of a Map coerce to the same Text, the
    value of the later pair overwrites that of the earlier one: under
    each text the Mapping holds one value, that of the last pair written
    as this text. *)
Definition map_last_text_wins (pairs : list (pyval * pyval)) : Prop :=
  forall d,
    convert_arrow_value_to_python (MapArray (map fst pairs) (map snd pairs))
    = Ok (PDict d) ->
    forall t, text_get d t = match last_value t pairs with
                             | Some v => [v]
                             | None => []
                             end.

(** The value of the last pair of a map whose key is not a null and is
    equal to [k] as a [dict] key. *)
Fixpoint last_equal (k : pyval) (pairs : list (pyval * pyval))
  : option pyval :=
  match pairs with
  | [] => None
  | kv :: rest =>
      match last_equal k rest with
      | Some v => Some v
      | None =>
          if negb (py_is_None kv.1) && key_eqb kv.1 k then Some kv.2
          else None
      end
  end.

(** ** The end-to-end scenario *)

(** [s] with each apostrophe made a double quote: the expected lines below
    are written with apostrophes. *)
Fixpoint quoted (s : string) : string :=
  match s with
  | EmptyString => EmptyString
  | String c s' =>
      String (if Ascii.eqb c "'"%char then DQUOTE else c) (quoted s')
  end.

(** Two rows with the columns [id: int] and [tags: map<int, string>]:
    [(1, {10: "x", 20: "y"})] and [(2, {})]. *)
Definition tags_table : Table := {|
  column_names := ["id"; "tags"];
  columns := [ [AInt 1; AInt 2];
               [AMap [(AInt 10, AString "x"); (AInt 20, AString "y")];
                AMap []] ];
  num_rows := 2
|}.

Definition tags_file : ParquetFile :=
  {| stem := "tags"; read := Ok tags_table |}.

(** The two lines the specification expects for [tags_table]. *)
Definition tags_lines_expected : string :=
  quoted "{'id': 1, 'tags': {'10': 'x', '20': 'y'}}" +:+ LF
  +:+ quoted "{'id': 2, 'tags': {}}" +:+ LF.

(** The two lines the code writes for it. *)
Definition tags_lines_written : string :=
  quoted "{'id': 1, 'tags': [[10, 'x'], [20, 'y']]}" +:+ LF
  +:+ quoted "{'id': 2, 'tags': []}" +:+ LF.

(** ** The batch seen file by file *)

(** What the conversion of one file returns or raises; it does not depend
    on the output files of the others. *)
Definition outcome (parquet_file : ParquetFile) : result nat :=
  (convert_parquet_to_jsonl parquet_file (stem parquet_file) ∅).2.

Definition rows_converted (parquet_file : ParquetFile) : nat :=
  match outcome parquet_file with
  | Ok rows => rows
  | Raise _ => 0%nat
  end.

Definition failure (parquet_file : ParquetFile) : option (string * exn) :=
  match outcome parquet_file with
  | Ok _ => None
  | Raise e => Some (stem parquet_file, e)
  end.

(** ** The normalizer on the store of Python objects *)

(** Python objects live in a store and are handled by reference; a list
    or a [dict] holds references, and [d[k] = v] changes the [dict] in
    place.  An immutable object ([None], a [bool], an [int], a [str], a
    tuple, ...) is held by value, and so are the keys of a [dict], which
    are hashable and hence immutable.  A tuple is held by value with all
    it holds: a list or a [dict] inside a tuple has no address of its own
    here, so what is said of addresses below is said of the lists and
    [dict]s outside tuples. *)
Abbreviation loc := positive.

Inductive obj : Type :=
| OImm (v : pyval)
| OList (elts : list loc)
| ODict (entries : list (pyval * loc)).

Abbreviation heap := (gmap loc obj).

(** A computation on the store that returns, raises, or is stuck (on a
    reference to no object, or out of fuel). *)
Definition M (A : Type) : Type := heap -> option (heap * result A).

Definition ret {A : Type} (a : A) : M A := fun h => Some (h, Ok a).

Definition raise {A : Type} (e : exn) : M A := fun h => Some (h, Raise e).

Definition stuck {A : Type} : M A := fun _ => None.

Definition bindM {A B : Type} (m : M A) (k : A -> M B) : M B :=
  fun h =>
    match m h with
    | Some (h', Ok a) => k a h'
    | Some (h', Raise e) => Some (h', Raise e)
    | None => None
    end.

Notation "x <<- m ;; k" := (bindM m (fun x => k))
  (at level 100, m at next level, right associativity).

(** The object a reference designates. *)
Definition load (l : loc) : M obj :=
  fun h =>
    match h !! l with
    | Some o => Some (h, Ok o)
    | None => None
    end.

Section Loops.
Context {A B : Type}.
Variable f : A -> M B.

(** [[f(x) for x in l]]. *)
Fixpoint mapM_st (l : list A) : M (list B) :=
  match l with
  | [] => ret []
  | x :: l' => y <<- f x ;; ys <<- mapM_st l' ;; ret (y :: ys)
  end.
End Loops.

(** [for x in l: step(x)]. *)
Fixpoint forM {A : Type} (l : list A) (step : A -> M unit) : M unit :=
  match l with
  | [] => ret tt
  | x :: l' => _ <<- step x ;; forM l' step
  end.

(** [l[i]] on a list of references. *)
Definition getitem_st {A : Type} (l : list A) (i : nat) : M A :=
  match l !! i with
  | Some x => ret x
  | None => raise IndexError
  end.

(** [x is None]. *)
Definition is_None_st (l : loc) : M bool :=
  o <<- load l ;;
  ret (match o with
       | OImm PNone => true
       | _ => false
       end).

(** The key that [d[k] = v] hashes and compares: [TypeError] on a list, a
    [dict], or a tuple that holds one. *)
Definition key_st (l : loc) : M pyval :=
  o <<- load l ;;
  match o with
  | OImm k => if hashable k then ret k else raise TypeError
  | _ => raise TypeError
  end.

(** [result[k] = v]: the [dict] at [result] is changed in place. *)
Definition setitem_st (result : loc) (k : pyval) (v : loc) : M unit :=
  o <<- load result ;;
  match o with
  | ODict entries =>
      fun h => Some (<[result := ODict (dict_store entries k v)]> h, Ok tt)
  | _ => stuck
  end.

Section Store.

(** The address given to a new object; any address not in use will do. *)
Variable fresh_loc : heap -> loc.

Definition new (o : obj) : M loc :=
  fun h => let l := fresh_loc h in Some (<[l := o]> h, Ok l).

(** The native object that [as_py()] or [to_pylist()] makes for a piece of
    Arrow data: new objects throughout. *)
Fixpoint build (v : pyval) : M loc :=
  match v with
  | PList elts => ls <<- mapM_st build elts ;; new (OList ls)
  | PDict entries =>
      vs <<- mapM_st (fun kv => build kv.2) entries ;;
      new (ODict (zip (map fst entries) vs))
  | _ => new (OImm v)
  end.

(** [convert_arrow_value_to_python] on a native object of the store, with
    the depth of calls bounded by [fuel].  An immutable object is returned
    as it is (lines 22-23 and 68); a [dict] or a list is rebuilt as a new
    object (lines 61-65). *)
Fixpoint convert_ref (fuel : nat) (value : loc) : M loc :=
  match fuel with
  | O => stuck
  | S fuel' =>
      o <<- load value ;;
      match o with
      | OImm _ => ret value
      | ODict entries =>
          vs <<- mapM_st (convert_ref fuel') (map snd entries) ;;
          new (ODict (zip (map fst entries) vs))
      | OList elts =>
          ls <<- mapM_st (convert_ref fuel') elts ;;
          new (OList ls)
      end
  end.

(** One round of the loop of lines 30-32 on the [dict] at [result]. *)
Definition map_step_st (fuel : nat) (keys items : list loc) (result : loc)
    (i : nat) : M unit :=
  k <<- getitem_st keys i ;;
  none <<- is_None_st k ;;
  if none then ret tt
  else
    item <<- getitem_st items i ;;
    v <<- convert_ref fuel item ;;
    k' <<- convert_ref fuel k ;;
    key <<- key_st k' ;;
    setitem_st result key v.

(** One round of the loop of lines 42-45 on the [dict] at [result]. *)
Definition struct_step_st (children : list (string * (bool * M loc)))
    (result : loc) (name : string) : M unit :=
  match field children name with
  | Raise e => raise e
  | Ok field_value =>
      if field_value.1 then ret tt
      else
        v <<- field_value.2 ;;
        setitem_st result (PStr name) v
  end.

(** [convert_arrow_value_to_python] on the store.  The data of an Arrow
    object is not in the store of Python objects; [to_pylist()] and
    [as_py()] make new Python objects from it.  A native object given by
    value stands for a new object of that value. *)
Fixpoint convert_st (fuel : nat) (value : value) : M loc :=
  match value with
  | Py v => l <<- build v ;; convert_ref fuel l
  | MapArray keys items =>
      keys' <<- mapM_st build keys ;;
      items' <<- mapM_st build items ;;
      result <<- new (ODict []) ;;
      _ <<- forM (seq 0 (length keys'))
                 (map_step_st fuel keys' items' result) ;;
      ret result
  | ListArray pylist | LargeListArray pylist =>
      elts <<- mapM_st build pylist ;;
      ls <<- mapM_st (convert_ref fuel) elts ;;
      new (OList ls)
  | StructArray fields =>
      let children :=
        map (fun f => (f.1, (is_None f.2, convert_st fuel f.2))) fields in
      result <<- new (ODict []) ;;
      _ <<- forM (map fst fields) (struct_step_st children result) ;;
      ret result
  | Array elems =>
      match elems with
      | [] => new (OImm PNone)
      | [x] => l <<- build x ;; convert_ref fuel l
      | _ =>
          ls <<- mapM_st (fun x => l <<- build x ;; convert_ref fuel l) elems ;;
          new (OList ls)
      end
  | Scalar as_py => l <<- build as_py ;; convert_ref fuel l
  end.

End Store.

(** How deep the calls on a native object go. *)
Fixpoint depth (v : pyval) : nat :=
  match v with
  | PList elts => S (max_list (map depth elts))
  | PDict entries => S (max_list (map (fun kv => depth kv.2) entries))
  | _ => 0
  end.

Fixpoint depth_value (value : value) : nat :=
  match value with
  | Py v | Scalar v => depth v
  | MapArray keys items =>
      max_list (map depth keys) `max` max_list (map depth items)
  | ListArray pylist | LargeListArray pylist | Array pylist =>
      max_list (map depth pylist)
  | StructArray fields => max_list (map (fun f => depth_value f.2) fields)
  end.

Definition is_container (v : pyval) : bool :=
  match v with
  | PList _ | PDict _ => true
  | _ => false
  end.

(** The object at [l] in the store [g], with all it refers to, is the
    native object [v]. *)
Inductive reads (g : heap) : pyval -> loc -> Prop :=
| reads_imm v l :
    is_container v = false -> g !! l = Some (OImm v) -> reads g v l
| reads_list elts ls l :
    g !! l = Some (OList ls) -> Forall2 (reads g) elts ls ->
    reads g (PList elts) l
| reads_dict entries es l :
    g !! l = Some (ODict es) ->
    Forall2 (fun kv e => kv.1 = e.1 /\ reads g kv.2 e.2) entries es ->
    reads g (PDict entries) l.

(** An outcome on the store is the outcome [r] of the function on values:
    the same exception, or a reference to an object that is the value
    returned. *)
Definition outcome_is (g : heap) (r : result pyval) (o : result loc) : Prop :=
  match r, o with
  | Ok v, Ok l => reads g v l
  | Raise e, Raise e' => e = e'
  | _, _ => False
  end.

(** The allocator that takes the first address not in use. *)
Definition first_free (h : heap) : loc := fresh (dom h).

Section ValueInduction.
Variable P : value -> Prop.
Hypothesis HPy : forall v, P (Py v).
Hypothesis HMapArray : forall keys items, P (MapArray keys items).
Hypothesis HListArray : forall pylist, P (ListArray pylist).
Hypothesis HLargeListArray : forall pylist, P (LargeListArray pylist).
Hypothesis HStructArray :
  forall fields, Forall (fun f => P f.2) fields -> P (StructArray fields).
Hypothesis HArray : forall elems, P (Array elems).
Hypothesis HScalar : forall v, P (Scalar v).

Fixpoint value_nested_ind (a : value) : P a :=
  match a with
  | Py v => HPy v
  | MapArray keys items => HMapArray keys items
  | ListArray pylist => HListArray pylist
  | LargeListArray pylist => HLargeListArray pylist
  | StructArray fields =>
      HStructArray fields
        ((fix all (l : list (string * value)) : Forall (fun f => P f.2) l :=
            match l with
            | [] => List.Forall_nil _
            | f :: l' => List.Forall_cons _ f l' (value_nested_ind f.2) (all l')
            end) fields)
  | Array elems => HArray elems
  | Scalar v => HScalar v
  end.
End ValueInduction.

(** ** Stores that grow *)

(** No computation started from a store that holds [h0] takes anything of
    [h0] away or changes it. *)
Definition framed {A : Type} (h0 : heap) (m : M A) : Prop :=
  forall h h' r, h0 ⊆ h -> m h = Some (h', r) -> h0 ⊆ h'.

(** From the store [h], of which the part [g] is known, to the store [h'],
    of which [g'] is known: nothing of [h] is changed, and what is known
    beyond [g] is new. *)
Definition grows (g h g' h' : heap) : Prop :=
  h ⊆ h' /\ g ⊆ g' /\ g' ⊆ h'
  /\ forall x, is_Some (h !! x) -> g !! x = None -> g' !! x = None.

(** [m] runs from [h] to an outcome that satisfies [Q] on a known part
    grown from [g]. *)
Definition spec {A : Type} (g h : heap) (m : M A)
    (Q : heap -> result A -> Prop) : Prop :=
  exists h' r g', m h = Some (h', r) /\ grows g h g' h' /\ Q g' r.

(** The [dict] under construction at [r], outside the known part [g],
    holds the entries of [d]. *)
Definition dict_at (g h : heap) (r : loc) (d : dict) : Prop :=
  g ⊆ h /\ g !! r = None
  /\ exists es,
       h !! r = Some (ODict es)
       /\ Forall2 (fun kv e => kv.1 = e.1 /\ reads g kv.2 e.2) d es.

(** A round [m] of a loop that fills the [dict] at [r] does what the
    round [pure] does on values: it raises the same exception, or leaves
    the [dict] with the same entries; the known part grows by new
    objects and never holds [r]. *)
Definition step_sim (g h : heap) (r : loc) (pure : result dict)
    (m : M unit) : Prop :=
  exists h' o g',
    m h = Some (h', o) /\ g ⊆ g' /\ g' ⊆ h' /\ g' !! r = None
    /\ (forall x, is_Some (h !! x) -> is_Some (h' !! x))
    /\ (forall x, is_Some (h !! x) -> g !! x = None -> g' !! x = None)
    /\ match pure, o with
       | Ok d', Ok _ => dict_at g' h' r d'
       | Raise e, Raise e' => e = e'
       | _, _ => False
       end.

(** ** More of the normalizer *)

(** The keys of a [dict] after stores under [keys] in order, from a
    [dict] whose keys are [seen]: a key that is [None] is passed over (line
    31), a key equal to one present changes no key, any other key goes to
    the end. *)
Fixpoint dict_keys_from (seen keys : list pyval) : list pyval :=
  match keys with
  | [] => seen
  | k :: rest =>
      if py_is_None k then dict_keys_from seen rest
      else if existsb (fun k0 => key_eqb k0 k) seen
           then dict_keys_from seen rest
           else dict_keys_from (seen ++ [k]) rest
  end.

(** ** More of the row emitter *)

(** A table as the reader delivers it: no column name twice, one column
    for each name, every column of [num_rows] cells. *)
Definition well_formed (table : Table) : Prop :=
  NoDup (column_names table)
  /\ length (columns table) = length (column_names table)
  /\ Forall (fun col => length col = num_rows table) (columns table).

(** Row [i] of a table as a [dict]: under each column name, [as_py()] of
    the cell. *)
Definition row_as_py (table : Table) (i : nat) : dict :=
  zip (map PStr (column_names table))
      (map (fun col => as_py (default ANull (col !! i))) (columns table)).

(** The content of a file in which [lines] were written one after the
    other. *)
Fixpoint lines_text (lines : list string) : string :=
  match lines with
  | [] => EmptyString
  | line :: rest => line +:+ lines_text rest
  end.

(** No character of [s] is a control character (below 0x20); a line
    break is one. *)
Fixpoint printable (s : string) : bool :=
  match s with
  | EmptyString => true
  | String c s' => (32 <=? nat_of_ascii c)%nat && printable s'
  end.

Section ArrowInduction.
Variable P : arrow_data -> Prop.
Hypothesis HNull : P ANull.
Hypothesis HBool : forall b, P (ABool b).
Hypothesis HInt : forall n, P (AInt n).
Hypothesis HString : forall s, P (AString s).
Hypothesis HList : forall elts, Forall P elts -> P (AList elts).
Hypothesis HMap :
  forall pairs, Forall (fun kv => P kv.1 /\ P kv.2) pairs -> P (AMap pairs).

Fixpoint arrow_nested_ind (a : arrow_data) : P a :=
  match a with
  | ANull => HNull
  | ABool b => HBool b
  | AInt n => HInt n
  | AString s => HString s
  | AList elts =>
      HList elts
        ((fix all (l : list arrow_data) : Forall P l :=
            match l with
            | [] => List.Forall_nil _
            | x :: l' => List.Forall_cons _ x l' (arrow_nested_ind x) (all l')
            end) elts)
  | AMap pairs =>
      HMap pairs
        ((fix both (l : list (arrow_data * arrow_data))
            : Forall (fun kv => P kv.1 /\ P kv.2) l :=
            match l with
            | [] => List.Forall_nil _
            | kv :: l' =>
                List.Forall_cons _ kv l'
                  (conj (arrow_nested_ind kv.1) (arrow_nested_ind kv.2))
                  (both l')
            end) pairs)
  end.
End ArrowInduction.

(** ** More of the normalizer on the store *)

(** An object that holds no list and no [dict] at any depth: [None], a
    [bool], an [int], a [str], an object of another immutable class, or a
    tuple of such objects. *)
Fixpoint immutable (v : pyval) : bool :=
  match v with
  | PList _ | PDict _ => false
  | PTuple elts => forallb immutable elts
  | _ => true
  end.

(** No tuple of [v] holds a list or a [dict].  Line 68 returns a tuple as
    it is, with the very objects it holds. *)
Fixpoint tuples_immutable (v : pyval) : bool :=
  match v with
  | PTuple elts => forallb immutable elts
  | PList elts => forallb tuples_immutable elts
  | PDict entries => forallb (fun kv => tuples_immutable kv.2) entries
  | _ => true
  end.

(** The object at [l] in [g] is the value [v]; every list and [dict] it
    is made of stands at an address that the store [h0] does not use, and
    the other objects it is made of hold no list and no [dict]. *)
Inductive copy_of (h0 g : heap) : pyval -> loc -> Prop :=
| copy_imm v l :
    immutable v = true -> g !! l = Some (OImm v) -> copy_of h0 g v l
| copy_list elts ls l :
    h0 !! l = None -> g !! l = Some (OList ls) ->
    Forall2 (copy_of h0 g) elts ls ->
    copy_of h0 g (PList elts) l
| copy_dict entries es l :
    h0 !! l = None -> g !! l = Some (ODict es) ->
    Forall2 (fun kv e => kv.1 = e.1 /\ copy_of h0 g kv.2 e.2) entries es ->
    copy_of h0 g (PDict entries) l.
(** * Properties *)

(** ** The error monad *)

Lemma bind_Ok {A B : Type} (a : A) (k : A -> result B) :
  (x <- Ok a ;; k x) = k a.
Proof. reflexivity. Qed.

Lemma bind_Raise {A B : Type} (e : exn) (k : A -> result B) :
  (x <- Raise e ;; k x) = Raise e.
Proof. reflexivity. Qed.

Lemma bind_inv_Ok {A B : Type} (m : result A) (k : A -> result B) (b : B) :
  (x <- m ;; k x) = Ok b -> exists a, m = Ok a /\ k a = Ok b.
Proof. destruct m as [a|e]; simpl; [eauto | discriminate]. Qed.

(** A loop whose accumulator holds an exception does nothing more. *)
Lemma fold_left_raised {A B : Type} (step : result A -> B -> result A)
    (l : list B) (e : exn) :
  (forall x, step (Raise e) x = Raise e) ->
  fold_left step l (Raise e) = Raise e.
Proof.
  intros Hstep. induction l as [|x l IH]; simpl; [reflexivity|].
  rewrite Hstep. exact IH.
Qed.

(** ** The normalizer on native objects *)

(** Rebuilding a native object leaves it as it was. *)
Lemma convert_py_id (v : pyval) : convert_py v = v.
Proof.
  induction v as [ | | | | | elts _ | elts IH | entries IH ]
    using pyval_nested_ind; simpl; try reflexivity.
  - f_equal. induction IH as [|x l Hx _ IHl]; simpl; [reflexivity|].
    rewrite Hx, IHl. reflexivity.
  - f_equal. induction IH as [|[k v] d [_ Hv] _ IHd]; simpl; [reflexivity|].
    simpl in Hv. rewrite Hv, IHd. reflexivity.
Qed.

Lemma map_convert_py_id (l : list pyval) : map convert_py l = l.
Proof.
  induction l as [|x l IH]; simpl; [reflexivity|].
  rewrite convert_py_id, IH. reflexivity.
Qed.

(** The result for each class of argument, with the copies folded away. *)
Lemma convert_Py (v : pyval) : convert_arrow_value_to_python (Py v) = Ok v.
Proof. simpl. rewrite convert_py_id. reflexivity. Qed.

Lemma convert_Scalar (v : pyval) :
  convert_arrow_value_to_python (Scalar v) = Ok v.
Proof. simpl. rewrite convert_py_id. reflexivity. Qed.

(** ** Keys *)

Lemma key_eqb_refl (k : pyval) : hashable k = true -> key_eqb k k = true.
Proof.
  induction k as [ | b | n | s | s | elts IH | elts _ | entries _ ]
    using pyval_nested_ind; simpl; try reflexivity; try discriminate.
  - intros _. destruct b; reflexivity.
  - intros _. apply Z.eqb_refl.
  - intros _. apply String.eqb_refl.
  - intros _. apply String.eqb_refl.
  - induction IH as [|x l Hx _ IHl]; simpl; [reflexivity|].
    intros H. apply andb_prop in H as [H1 H2].
    rewrite (Hx H1), (IHl H2). reflexivity.
Qed.

(** ** The loop over a map *)

Lemma map_step_raised keys items e i :
  map_step keys items (Raise e) i = Raise e.
Proof. reflexivity. Qed.

Lemma drop_S_tail {A : Type} (n : nat) (l : list A) :
  drop (S n) l = tail (drop n l).
Proof.
  revert l. induction n as [|n IH]; intros [|x l]; try reflexivity.
  simpl drop at 2. rewrite <- IH. reflexivity.
Qed.

Lemma lookup_head_drop {A : Type} (n : nat) (l : list A) :
  l !! n = head (drop n l).
Proof.
  revert l. induction n as [|n IH]; intros [|x l]; try reflexivity.
  simpl. apply IH.
Qed.

Lemma map_loop_from (pre keys items : list pyval) (acc : result dict) :
  fold_left (map_step (pre ++ keys) items)
            (seq (length pre) (length keys)) acc
  = (r <- acc ;; map_pairs keys (drop (length pre) items) r).
Proof.
  revert pre acc. induction keys as [|k keys IH]; intros pre acc.
  - simpl. destruct acc; reflexivity.
  - simpl seq. simpl fold_left.
    replace (pre ++ k :: keys) with ((pre ++ [k]) ++ keys)
      by (rewrite <- app_assoc; reflexivity).
    replace (S (length pre)) with (length (pre ++ [k]))
      by (rewrite length_app; simpl; lia).
    rewrite IH. rewrite length_app. simpl length.
    destruct acc as [d|e]; [|reflexivity].
    unfold map_step. simpl bind.
    unfold getitem.
    rewrite lookup_app_l by (rewrite length_app; simpl; lia).
    rewrite lookup_app_r by lia.
    replace (length pre - length pre)%nat with 0%nat by lia. simpl.
    replace (length pre + 1)%nat with (S (length pre)) by lia.
    rewrite drop_S_tail, lookup_head_drop.
    destruct (py_is_None k); [reflexivity|].
    destruct (drop (length pre) items) as [|item rest]; simpl; [reflexivity|].
    rewrite !convert_py_id. reflexivity.
Qed.

(** The map branch is that loop from the empty [dict]. *)
Lemma convert_MapArray (keys items : list pyval) :
  convert_arrow_value_to_python (MapArray keys items)
  = (d <- map_pairs keys items [] ;; Ok (PDict d)).
Proof.
  pose proof (map_loop_from [] keys items (Ok [])) as H.
  simpl in H. simpl. rewrite H. reflexivity.
Qed.

(** ** The loop over a struct *)


Lemma field_unique {A B : Type} (h : A -> B) (all : list (string * A))
    (name : string) (child : A) :
  NoDup (map fst all) -> (name, child) ∈ all ->
  field (map (fun f => (f.1, h f.2)) all) name = Ok (h child).
Proof.
  unfold field. induction all as [|[n c] all IH]; intros Hnd Hin.
  - inversion Hin.
  - simpl in Hnd. apply NoDup_cons in Hnd as [Hn Hnd].
    assert (Hrest : forall n', n' ∉ map fst all ->
              filter (fun f : string * B => String.eqb f.1 n' = true)
                     (map (fun f => (f.1, h f.2)) all) = []).
    { clear. intros n' Hn'. induction all as [|[m c] all IH]; [reflexivity|].
      simpl. rewrite filter_cons_False.
      - apply IH. intros H. apply Hn'. simpl. right. exact H.
      - simpl. intros H. apply String.eqb_eq in H. subst.
        apply Hn'. simpl. left. }
    simpl. apply elem_of_cons in Hin as [Heq|Hin].
    + inversion Heq; subst. rewrite filter_cons_True
        by (simpl; apply String.eqb_refl).
      rewrite (Hrest _ Hn). reflexivity.
    + rewrite filter_cons_False.
      * apply IH; assumption.
      * simpl. intros H. apply String.eqb_eq in H. subst.
        apply Hn. apply (list_elem_of_fmap_2 fst) in Hin. exact Hin.
Qed.

Lemma struct_loop_from (all pre fields : list (string * value))
    (acc : result dict) :
  all = pre ++ fields -> NoDup (map fst all) ->
  fold_left
    (struct_step
       (map (fun f => (f.1, (is_None f.2, convert_arrow_value_to_python f.2)))
            all))
    (map fst fields) acc
  = (d <- acc ;; struct_fields fields d).
Proof.
  intros Hall Hnd. revert pre acc Hall.
  induction fields as [|[name child] fields IH]; intros pre acc Hall.
  - simpl. destruct acc; reflexivity.
  - simpl map. simpl fold_left.
    rewrite (IH (pre ++ [(name, child)]))
      by (rewrite <- app_assoc; exact Hall).
    destruct acc as [d|e]; [|reflexivity].
    unfold struct_step at 1. simpl bind at 2.
    rewrite (field_unique
               (fun c => (is_None c, convert_arrow_value_to_python c))
               all name child Hnd)
      by (subst all; apply elem_of_app; right; left).
    simpl. destruct (is_None child); [reflexivity|].
    destruct (convert_arrow_value_to_python child) as [v|e]; [|reflexivity].
    simpl. reflexivity.
Qed.

(** The struct branch when no two fields share a name. *)
Lemma convert_StructArray (fields : list (string * value)) :
  NoDup (map fst fields) ->
  convert_arrow_value_to_python (StructArray fields)
  = (d <- struct_fields fields [] ;; Ok (PDict d)).
Proof.
  intros Hnd. simpl.
  rewrite (struct_loop_from fields [] fields (Ok []) eq_refl Hnd).
  reflexivity.
Qed.

(** ** Keys of the [dict] built for a map *)

Lemma dict_store_keys_incl (d : dict) (k v k' : pyval) :
  k' ∈ map fst (dict_store d k v) -> k' ∈ map fst d \/ k' = k.
Proof.
  induction d as [|[k0 v0] d IH]; simpl.
  - intros H. apply list_elem_of_singleton in H. right. exact H.
  - destruct (key_eqb k0 k); simpl; intros H.
    + left. exact H.
    + apply elem_of_cons in H as [H|H].
      * left. subst. left.
      * destruct (IH H) as [H'|H']; [left; right; exact H' | right; exact H'].
Qed.

Lemma dict_store_keys_kept (d : dict) (k v k' : pyval) :
  k' ∈ map fst d -> k' ∈ map fst (dict_store d k v).
Proof.
  induction d as [|[k0 v0] d IH]; simpl.
  - intros H. inversion H.
  - destruct (key_eqb k0 k); simpl; intros H; [exact H|].
    apply elem_of_cons in H as [H|H]; [subst; left | right; apply IH, H].
Qed.

Lemma dict_store_key_present (d : dict) (k v : pyval) :
  hashable k = true ->
  exists k', k' ∈ map fst (dict_store d k v) /\ key_eqb k' k = true.
Proof.
  intros Hh. induction d as [|[k0 v0] d IH]; simpl.
  - exists k. split; [left | apply key_eqb_refl, Hh].
  - destruct (key_eqb k0 k) eqn:E; simpl.
    + exists k0. split; [left | exact E].
    + destruct IH as (k' & Hin & Heq). exists k'. split; [right; exact Hin | exact Heq].
Qed.

Lemma py_is_None_false (k : pyval) : py_is_None k = false <-> k <> PNone.
Proof. destruct k; simpl; split; congruence. Qed.

Lemma py_is_None_true (k : pyval) : py_is_None k = true <-> k = PNone.
Proof. destruct k; simpl; split; congruence. Qed.

Lemma map_pairs_keys (keys items : list pyval) (d0 d : dict) :
  map_pairs keys items d0 = Ok d ->
  (forall k, k ∈ map fst d -> k ∈ map fst d0 \/ (k ∈ keys /\ k <> PNone))
  /\ (forall k, k ∈ map fst d0 -> k ∈ map fst d)
  /\ (forall k, k ∈ keys -> k <> PNone ->
                exists k', k' ∈ map fst d /\ key_eqb k' k = true).
Proof.
  revert items d0. induction keys as [|k keys IH]; intros items d0 H.
  - simpl in H. inversion H; subst. split; [|split].
    + intros k Hk. left. exact Hk.
    + intros k Hk. exact Hk.
    + intros k Hk. inversion Hk.
  - simpl in H. destruct (py_is_None k) eqn:Hk.
    + apply IH in H as (H1 & H2 & H3). split; [|split].
      * intros k' Hk'. destruct (H1 k' Hk') as [?|[? ?]]; [left; assumption|].
        right. split; [right; assumption | assumption].
      * exact H2.
      * intros k' Hk' Hne. apply elem_of_cons in Hk' as [->|Hk'].
        -- apply py_is_None_true in Hk. contradiction.
        -- apply H3; assumption.
    + destruct items as [|item items]; [discriminate|].
      apply bind_inv_Ok in H as (r & Hr & H).
      unfold dict_setitem in Hr. destruct (hashable k) eqn:Hh; [|discriminate].
      inversion Hr; subst r; clear Hr.
      apply IH in H as (H1 & H2 & H3). split; [|split].
      * intros k' Hk'. destruct (H1 k' Hk') as [Hs|[? ?]].
        -- apply dict_store_keys_incl in Hs as [?| ->]; [left; assumption|].
           right. split; [left | apply py_is_None_false, Hk].
        -- right. split; [right; assumption | assumption].
      * intros k' Hk'. apply H2, dict_store_keys_kept, Hk'.
      * intros k' Hk' Hne. apply elem_of_cons in Hk' as [->|Hk'].
        -- destruct (dict_store_key_present d0 k item Hh) as (k1 & Hin & Heq).
           exists k1. split; [apply H2, Hin | exact Heq].
        -- apply H3; assumption.
Qed.

(** ** C1 *)

(** C1, the claim as stated, fails: the map with the [int] key 10 gives a
    [dict] whose key is the [int] 10, not a text. *)
Lemma map_int_key_not_Text : ~ map_keys_are_Text [PInt 10] [PStr "x"].
Proof.
  intros H. specialize (H [(PInt 10, PStr "x")] eq_refl).
  apply Forall_cons in H as [H _]. discriminate H.
Qed.

(** C1, amended: the normalizer does not coerce the keys of a map.  Every
    key of the [dict] it builds is one of the source keys that are not
    [None], as it is (so it is a text exactly when the source key is one),
    and every source key that is not [None] is present in the [dict] up to
    Python's [==]; none is dropped. *)
Theorem map_keys_unchanged (keys items : list pyval) (d : dict) :
  convert_arrow_value_to_python (MapArray keys items) = Ok (PDict d) ->
  (forall k, k ∈ map fst d -> k ∈ keys /\ k <> PNone)
  /\ (forall k, k ∈ keys -> k <> PNone ->
                exists k', k' ∈ map fst d /\ key_eqb k' k = true).
Proof.
  rewrite convert_MapArray. intros H.
  apply bind_inv_Ok in H as (d' & Hd & H). inversion H; subst d'; clear H.
  apply map_pairs_keys in Hd as (H1 & _ & H3). split; [|exact H3].
  intros k Hk. destruct (H1 k Hk) as [Hin|Hin]; [inversion Hin | exact Hin].
Qed.

Lemma map_keys_unchanged_witness :
  (forall k, k ∈ map fst [(PInt 10, PStr "x"); (PStr "a", PInt 1)] ->
             k ∈ [PInt 10; PNone; PStr "a"] /\ k <> PNone)
  /\ (forall k, k ∈ [PInt 10; PNone; PStr "a"] -> k <> PNone ->
                exists k', k' ∈ map fst [(PInt 10, PStr "x"); (PStr "a", PInt 1)]
                           /\ key_eqb k' k = true).
Proof.
  apply (map_keys_unchanged [PInt 10; PNone; PStr "a"]
                            [PStr "x"; PStr "n"; PInt 1]).
  reflexivity.
Defined.

(** ** C2 *)

Lemma mapM_Scalar (elems : list pyval) :
  mapM (fun e => convert_arrow_value_to_python (Scalar e)) elems = Ok elems.
Proof.
  induction elems as [|e elems IH]; [reflexivity|].
  cbn [mapM]. rewrite convert_Scalar, IH. reflexivity.
Qed.

(** C2: an array handed back in place of a single value is unwrapped.  Of
    length 0 it becomes [None]; of length 1, the normalization of its sole
    element; of a greater length, the list of the normalizations of its
    elements, in order. *)
Theorem array_unwrapped :
  convert_arrow_value_to_python (Array []) = Ok PNone
  /\ (forall x,
        convert_arrow_value_to_python (Array [x])
        = convert_arrow_value_to_python (Scalar x))
  /\ (forall x y rest, exists rs,
        mapM (fun e => convert_arrow_value_to_python (Scalar e))
             (x :: y :: rest) = Ok rs
        /\ convert_arrow_value_to_python (Array (x :: y :: rest))
           = Ok (PList rs)).
Proof.
  split; [reflexivity|]. split; [reflexivity|].
  intros x y rest. exists (x :: y :: rest). split.
  - apply mapM_Scalar.
  - cbn [convert_arrow_value_to_python]. rewrite map_convert_py_id.
    reflexivity.
Qed.

(** ** C10 *)

(** C10: normalizing the result of a normalization gives it back. *)
Theorem convert_idempotent (v : value) (r : pyval) :
  convert_arrow_value_to_python v = Ok r ->
  convert_arrow_value_to_python (Py r) = convert_arrow_value_to_python v.
Proof. intros H. rewrite H. apply convert_Py. Qed.

Lemma convert_idempotent_witness :
  convert_arrow_value_to_python
    (Py (PDict [(PInt 10, PList [PNone; PStr "x"])]))
  = convert_arrow_value_to_python
      (MapArray [PInt 10; PNone] [PList [PNone; PStr "x"]; PInt 0]).
Proof.
  apply (convert_idempotent
           (MapArray [PInt 10; PNone] [PList [PNone; PStr "x"]; PInt 0])).
  reflexivity.
Defined.

(** ** C3 *)


Lemma dict_store_fresh (d : dict) (k v : pyval) :
  (forall k0, k0 ∈ map fst d -> key_eqb k0 k = false) ->
  dict_store d k v = d ++ [(k, v)].
Proof.
  induction d as [|[k0 v0] d IH]; simpl; intros H; [reflexivity|].
  rewrite (H k0) by left. rewrite IH; [reflexivity|].
  intros k1 Hk1. apply H. right. exact Hk1.
Qed.

Lemma present_fields_cons (f : string * value) (rest : list (string * value)) :
  present_fields (f :: rest)
  = if is_None f.2 then present_fields rest else f :: present_fields rest.
Proof.
  unfold present_fields. destruct (is_None f.2) eqn:E.
  - apply filter_cons_False. rewrite E. discriminate.
  - apply filter_cons_True. exact E.
Qed.













(** ** C4 *)

Lemma map_pairs_lengths (keys items : list pyval) (d : dict) :
  Forall (fun k => hashable k = true) keys ->
  (map_pairs keys items d = Raise IndexError
   /\ ~ Forall (fun k => k = PNone) (drop (length items) keys))
  \/ (exists d',
        map_pairs keys items d = Ok d'
        /\ Forall (fun k => k = PNone) (drop (length items) keys)
        /\ map_pairs (take (length keys `min` length items) keys)
                     (take (length keys `min` length items) items) d = Ok d').
Proof.
  intros Hh. revert items d.
  induction Hh as [|k keys Hk _ IH]; intros items d.
  - right. exists d. simpl. rewrite drop_nil. auto.
  - cbn [map_pairs]. destruct (py_is_None k) eqn:Hnone.
    + destruct items as [|item items]; cbn [tail length].
      * destruct (IH [] d) as [[H1 H2]|(d' & H1 & H2 & H3)].
        -- left. split; [exact H1|]. simpl in *. intros H.
           apply H2. apply Forall_cons in H as [_ H]. exact H.
        -- right. exists d'. split; [exact H1|]. simpl in *.
           rewrite Nat.min_0_r in H3. simpl in H3. split; [|exact H3].
           apply Forall_cons. split; [apply py_is_None_true, Hnone | exact H2].
      * destruct (IH items d) as [[H1 H2]|(d' & H1 & H2 & H3)].
        -- left. split; [exact H1 | exact H2].
        -- right. exists d'. split; [exact H1|]. split; [exact H2|].
           cbn [Nat.min take map_pairs]. rewrite Hnone. exact H3.
    + destruct items as [|item items]; cbn [length].
      * left. split; [reflexivity|]. simpl. intros H.
        apply Forall_cons in H as [H _]. subst k. discriminate Hnone.
      * unfold dict_setitem. rewrite Hk. cbn [bind].
        destruct (IH items (dict_store d k item))
          as [[H1 H2]|(d' & H1 & H2 & H3)].
        -- left. split; [exact H1 | exact H2].
        -- right. exists d'. split; [exact H1|]. split; [exact H2|].
           cbn [Nat.min take map_pairs]. rewrite Hnone.
           unfold dict_setitem. rewrite Hk. exact H3.
Qed.

(** C4, the claim as stated, fails: one key and two values are a mismatch,
    and no error is raised; the second value is ignored. *)
Lemma map_extra_item_accepted :
  ~ map_mismatch_rejected [PInt 1] [PStr "a"; PStr "b"].
Proof.
  intros H. destruct H as [e He]; [simpl; lia|]. discriminate He.
Qed.

(** C4, amended: the code has no error of its own for a malformed map.
    With hashable keys, when every key at a position past the end of the
    values is [None], no error is raised and the result is that of the map
    cut to the shorter of the two lengths; otherwise, reading the value of
    the first such key that is not [None] raises Python's [IndexError]. *)
Theorem map_length_mismatch (keys items : list pyval) :
  Forall (fun k => hashable k = true) keys ->
  (Forall (fun k => k = PNone) (drop (length items) keys) ->
   exists d,
     convert_arrow_value_to_python (MapArray keys items) = Ok (PDict d)
     /\ convert_arrow_value_to_python
          (MapArray (take (length keys `min` length items) keys)
                    (take (length keys `min` length items) items))
        = Ok (PDict d))
  /\ (~ Forall (fun k => k = PNone) (drop (length items) keys) ->
      convert_arrow_value_to_python (MapArray keys items) = Raise IndexError).
Proof.
  intros Hh. rewrite !convert_MapArray.
  destruct (map_pairs_lengths keys items [] Hh)
    as [[H1 H2]|(d' & H1 & H2 & H3)].
  - split; [intros H; contradiction|]. intros _. rewrite H1. reflexivity.
  - split; [|intros H; contradiction]. intros _. exists d'.
    rewrite H1, H3. split; reflexivity.
Qed.

Lemma map_length_mismatch_witness :
  (exists d,
     convert_arrow_value_to_python
       (MapArray [PInt 1; PNone] [PStr "a"]) = Ok (PDict d)
     /\ convert_arrow_value_to_python (MapArray [PInt 1] [PStr "a"])
        = Ok (PDict d))
  /\ convert_arrow_value_to_python (MapArray [PInt 1; PInt 2] [PStr "a"])
     = Raise IndexError.
Proof.
  split.
  - apply (map_length_mismatch [PInt 1; PNone] [PStr "a"]).
    + repeat constructor.
    + repeat constructor.
  - apply (map_length_mismatch [PInt 1; PInt 2] [PStr "a"]).
    + repeat constructor.
    + simpl. intros H. apply Forall_cons in H as [H _]. discriminate H.
Defined.

(** ** Keys of one class and their texts *)

Lemma int_str_inj (m n : Z) : int_str m = int_str n -> m = n.
Proof.
  unfold int_str. intros H.
  assert (Hnz : forall z, NilZero.int_of_string
                            (NilZero.string_of_int (Z.to_int z))
                          = Some (Z.to_int z)).
  { intros z. apply NilZero.isi; destruct z; simpl; try discriminate;
      intros E; inversion E as [E'];
      exact (DecimalPos.Unsigned.to_uint_nonnil _ E'). }
  pose proof (Hnz m) as Hm. rewrite H, Hnz in Hm.
  inversion Hm as [E]. symmetry. apply DecimalZ.to_int_inj, E.
Qed.

Lemma same_class_text (c : key_class) (a b : pyval) (t : string) :
  class_of a = Some c -> class_of b = Some c ->
  has_text a t = true -> has_text b t = true -> a = b.
Proof.
  unfold has_text.
  destruct a as [ | x | m | s | | | | ], b as [ | y | n | s' | | | | ];
    simpl; try discriminate; intros Ha Hb Hta Htb;
    try (rewrite <- Ha in Hb; discriminate Hb).
  - destruct x, y; try reflexivity;
      apply String.eqb_eq in Hta, Htb; subst t; discriminate Htb.
  - apply String.eqb_eq in Hta, Htb. subst t.
    f_equal. symmetry. apply int_str_inj, Htb.
  - apply String.eqb_eq in Hta, Htb. subst. reflexivity.
Qed.

Lemma same_class_eqb (c : key_class) (a b : pyval) :
  class_of a = Some c -> class_of b = Some c ->
  key_eqb a b = true -> a = b.
Proof.
  destruct a as [ | x | m | s | | | | ], b as [ | y | n | s' | | | | ];
    simpl; try discriminate; intros Ha Hb H;
    try (rewrite <- Ha in Hb; discriminate Hb).
  - destruct x, y; simpl in H; congruence.
  - apply Z.eqb_eq in H. subst. reflexivity.
  - apply String.eqb_eq in H. subst. reflexivity.
Qed.

Lemma class_hashable (c : key_class) (k : pyval) :
  class_of k = Some c -> hashable k = true.
Proof. destruct k; simpl; intros H; try discriminate; reflexivity. Qed.

Lemma class_not_None (c : key_class) (k : pyval) :
  class_of k = Some c -> py_is_None k = false.
Proof. destruct k; simpl; intros H; try discriminate; reflexivity. Qed.

Lemma text_get_cons (kv : pyval * pyval) (d : dict) (t : string) :
  text_get (kv :: d) t
  = if has_text kv.1 t then kv.2 :: text_get d t else text_get d t.
Proof.
  unfold text_get. destruct (has_text kv.1 t) eqn:E.
  - rewrite filter_cons_True by exact E. reflexivity.
  - rewrite filter_cons_False by (rewrite E; discriminate). reflexivity.
Qed.

(** Storing under a key of the class of the keys present replaces the one
    entry written under the text of the key, or adds it. *)
Lemma dict_store_text (c : key_class) (d : dict) (k v : pyval) (t : string) :
  Forall (fun kv => class_of kv.1 = Some c) d ->
  class_of k = Some c ->
  (forall t', length (text_get d t') <= 1)%nat ->
  text_get (dict_store d k v) t
  = if has_text k t then [v] else text_get d t.
Proof.
  intros Hd Hk. induction Hd as [|[k0 v0] d Hk0 Hd IH]; intros Huniq.
  - cbn [dict_store]. rewrite text_get_cons. cbn [fst snd].
    destruct (has_text k t); reflexivity.
  - cbn [fst] in Hk0.
    assert (Huniq' : forall t', (length (text_get d t') <= 1)%nat).
    { intros t'. specialize (Huniq t'). rewrite text_get_cons in Huniq.
      destruct (has_text (k0, v0).1 t'); simpl in Huniq; lia. }
    cbn [dict_store]. destruct (key_eqb k0 k) eqn:E.
    + apply (same_class_eqb c) in E; [|assumption..]. subst k0.
      specialize (Huniq t). rewrite !text_get_cons in *. cbn [fst snd] in *.
      destruct (has_text k t); [|reflexivity].
      destruct (text_get d t); [reflexivity | simpl in Huniq; lia].
    + rewrite !text_get_cons. cbn [fst snd]. rewrite (IH Huniq').
      destruct (has_text k0 t) eqn:E0; [|reflexivity].
      destruct (has_text k t) eqn:E1; [|reflexivity].
      rewrite (same_class_text c k0 k t Hk0 Hk E0 E1) in E.
      rewrite key_eqb_refl in E by (eapply class_hashable; eassumption).
      discriminate E.
Qed.

Lemma dict_store_class (c : key_class) (d : dict) (k v : pyval) :
  Forall (fun kv => class_of kv.1 = Some c) d ->
  class_of k = Some c ->
  Forall (fun kv => class_of kv.1 = Some c) (dict_store d k v).
Proof.
  intros Hd Hk. induction Hd as [|[k0 v0] d Hk0 Hd IH]; cbn [dict_store].
  - constructor; [exact Hk | constructor].
  - destruct (key_eqb k0 k); constructor; assumption.
Qed.

(** The loop over a map whose keys are of one class: it ends without an
    exception, and under each text stands the value of the last pair
    written as that text, if there is one. *)
Lemma map_pairs_text (c : key_class) (pairs : list (pyval * pyval))
    (d0 : dict) :
  keys_of_class c (map fst pairs) ->
  Forall (fun kv => class_of kv.1 = Some c) d0 ->
  (forall t, length (text_get d0 t) <= 1)%nat ->
  exists d,
    map_pairs (map fst pairs) (map snd pairs) d0 = Ok d
    /\ forall t,
         text_get d t = match last_value t pairs with
                        | Some v => [v]
                        | None => text_get d0 t
                        end.
Proof.
  revert d0. induction pairs as [|[k v] pairs IH]; intros d0 Hc Hd0 Huniq.
  - exists d0. split; reflexivity.
  - cbn [map fst snd] in Hc. apply Forall_cons in Hc as [Hk Hc].
    cbn [map fst snd map_pairs tail last_value].
    destruct Hk as [->|Hk].
    + cbn [py_is_None negb andb].
      destruct (IH d0 Hc Hd0 Huniq) as (d & Hd & Ht).
      exists d. split; [exact Hd|]. intros t. rewrite Ht.
      destruct (last_value t pairs); reflexivity.
    + rewrite (class_not_None c k Hk). cbn [negb andb].
      unfold dict_setitem. rewrite (class_hashable c k Hk). cbn [bind].
      assert (Hstore : forall t, text_get (dict_store d0 k v) t
                                 = if has_text k t then [v] else text_get d0 t)
        by (intros t; apply (dict_store_text c); assumption).
      destruct (IH (dict_store d0 k v) Hc) as (d & Hd & Ht).
      * apply dict_store_class; assumption.
      * intros t. rewrite Hstore. destruct (has_text k t); [simpl; lia|].
        apply Huniq.
      * exists d. split; [exact Hd|]. intros t. rewrite Ht, Hstore.
        destruct (last_value t pairs); [reflexivity|].
        destruct (has_text k t); reflexivity.
Qed.

(** ** Keys that are equal *)

(** [==] on [dict] keys is symmetric and transitive. *)
Lemma key_eqb_sym (a b : pyval) : key_eqb a b = key_eqb b a.
Proof.
  revert b.
  induction a as [ | x | m | s | s | elts IH | elts _ | entries _ ]
    using pyval_nested_ind; intros [ | y | n | t | t | ys | ys | ys ];
    cbn [key_eqb]; try reflexivity.
  - destruct x, y; reflexivity.
  - apply Z.eqb_sym.
  - apply String.eqb_sym.
  - apply String.eqb_sym.
  - revert ys. induction IH as [|x l Hx _ IHl]; intros [|y ys];
      try reflexivity.
    rewrite (Hx y), (IHl ys). reflexivity.
Qed.

Lemma key_eqb_trans (a b c : pyval) :
  key_eqb a b = true -> key_eqb b c = true -> key_eqb a c = true.
Proof.
  revert b c.
  induction a as [ | x | m | s | s | elts IH | elts _ | entries _ ]
    using pyval_nested_ind;
    intros [ | y | n | t | t | ys | ys | ys ] [ | z | p | u | u | zs | zs | zs ];
    cbn [key_eqb]; try discriminate; try (intros; reflexivity).
  all: try (intros H1 H2;
            rewrite ?Z.eqb_eq, ?String.eqb_eq, ?Bool.eqb_true_iff in *;
            repeat match goal with b : bool |- _ => destruct b end;
            simpl in *; first [congruence | lia]).
  - revert ys zs. induction IH as [|x l Hx _ IHl]; intros [|y ys] [|z zs];
      try discriminate; try (intros; reflexivity).
    intros H1 H2. apply andb_prop in H1 as [H1 H1'].
    apply andb_prop in H2 as [H2 H2'].
    rewrite (Hx y z H1 H2), (IHl ys zs H1' H2'). reflexivity.
Qed.

(** [d.get(k)] after [d[k'] = v]. *)
Lemma dict_get_store (d : dict) (k' v k : pyval) :
  dict_get (dict_store d k' v) k
  = if key_eqb k' k then Some v else dict_get d k.
Proof.
  induction d as [|[k0 v0] d IH]; cbn [dict_store dict_get].
  - reflexivity.
  - destruct (key_eqb k0 k') eqn:E0; cbn [dict_get].
    + destruct (key_eqb k0 k) eqn:E1.
      * rewrite key_eqb_sym in E0.
        rewrite (key_eqb_trans k' k0 k E0 E1). reflexivity.
      * destruct (key_eqb k' k) eqn:E2; [|reflexivity].
        rewrite (key_eqb_trans k0 k' k E0 E2) in E1. discriminate E1.
    + destruct (key_eqb k0 k) eqn:E1; [|exact IH].
      destruct (key_eqb k' k) eqn:E2; [|reflexivity].
      rewrite key_eqb_sym in E2.
      rewrite (key_eqb_trans k0 k k' E1 E2) in E0. discriminate E0.
Qed.

Lemma map_pairs_get (pairs : list (pyval * pyval)) (d0 d : dict) (k : pyval) :
  map_pairs (map fst pairs) (map snd pairs) d0 = Ok d ->
  dict_get d k = match last_equal k pairs with
                 | Some v => Some v
                 | None => dict_get d0 k
                 end.
Proof.
  revert d0. induction pairs as [|[k0 v0] pairs IH]; intros d0 H.
  - inversion H; subst. reflexivity.
  - cbn [map fst snd map_pairs tail last_equal] in *.
    destruct (py_is_None k0) eqn:E0; cbn [negb andb].
    + rewrite (IH d0 H). destruct (last_equal k pairs); reflexivity.
    + apply bind_inv_Ok in H as (r & Hr & H). unfold dict_setitem in Hr.
      destruct (hashable k0); [|discriminate Hr]. inversion Hr; subst r.
      rewrite (IH _ H), dict_get_store.
      destruct (last_equal k pairs); [reflexivity|].
      destruct (key_eqb k0 k); reflexivity.
Qed.

Lemma map_pairs_hashable (pairs : list (pyval * pyval)) (d0 : dict) :
  Forall (fun kv => hashable kv.1 = true) pairs ->
  exists d, map_pairs (map fst pairs) (map snd pairs) d0 = Ok d.
Proof.
  intros H. revert d0. induction H as [|[k0 v0] pairs Hk _ IH]; intros d0.
  - exists d0. reflexivity.
  - cbn [map fst snd map_pairs tail] in *.
    destruct (py_is_None k0); [apply IH|].
    unfold dict_setitem. rewrite Hk. cbn [bind]. apply IH.
Qed.



(** ** C6 *)

(** C6, the claim as stated, fails: the keys [1] and ['1'] coerce to the
    same text and are not equal as [dict] keys, so the [dict] holds both
    values, the earlier next to the later. *)
Lemma map_same_text_both_kept :
  ~ map_last_text_wins [(PInt 1, PStr "a"); (PStr "1", PStr "b")].
Proof.
  intros H.
  specialize (H [(PInt 1, PStr "a"); (PStr "1", PStr "b")] eq_refl "1").
  vm_compute in H. discriminate H.
Qed.

(** C6, amended: collisions of keys are decided by the equality of the
    keys as [dict] keys, not by their texts.  Whenever a map is
    normalized to a [dict], the [dict] holds under each key the value of
    the last pair whose key is not a null and equals it: a pair whose key
    is a null leaves nothing, and a later pair overwrites an earlier one
    of an equal key.  The map is normalized whenever its keys are
    hashable, nulls among them or not.  When the keys are of one class
    ([bool], [int] or [str]) they are equal exactly when they are written
    as the same text, and the [dict] holds under each text the value of
    the last pair written as it. *)
Theorem map_last_write_wins (pairs : list (pyval * pyval)) :
  (forall d,
     convert_arrow_value_to_python (MapArray (map fst pairs) (map snd pairs))
     = Ok (PDict d) ->
     forall k, dict_get d k = last_equal k pairs)
  /\ (Forall (fun kv => hashable kv.1 = true) pairs ->
      exists d,
        convert_arrow_value_to_python
          (MapArray (map fst pairs) (map snd pairs)) = Ok (PDict d))
  /\ (forall c,
        keys_of_class c (map fst pairs) ->
        exists d,
          convert_arrow_value_to_python
            (MapArray (map fst pairs) (map snd pairs)) = Ok (PDict d)
          /\ forall t,
               text_get d t = match last_value t pairs with
                              | Some v => [v]
                              | None => []
                              end).
Proof.
  rewrite convert_MapArray. split; [|split].
  - intros d H k. apply bind_inv_Ok in H as (d' & Hd & H).
    inversion H; subst d'; clear H.
    rewrite (map_pairs_get pairs [] d k Hd).
    destruct (last_equal k pairs); reflexivity.
  - intros Hh. destruct (map_pairs_hashable pairs [] Hh) as [d Hd].
    exists d. rewrite Hd. reflexivity.
  - intros c Hc. destruct (map_pairs_text c pairs [] Hc) as (d & Hd & Ht).
    + constructor.
    + intros t. simpl. lia.
    + exists d. rewrite Hd. split; [reflexivity | exact Ht].
Qed.

Lemma map_last_write_wins_witness :
  exists d,
    convert_arrow_value_to_python
      (MapArray [PInt 10; PNone; PInt 20; PInt 10]
                [PStr "x"; PStr "n"; PStr "y"; PStr "z"])
    = Ok (PDict d)
    /\ dict_get d (PInt 10) = Some (PStr "z")
    /\ dict_get d PNone = None
    /\ forall k,
         dict_get d k
         = last_equal k [(PInt 10, PStr "x"); (PNone, PStr "n");
                         (PInt 20, PStr "y"); (PInt 10, PStr "z")].
Proof.
  destruct (map_last_write_wins
              [(PInt 10, PStr "x"); (PNone, PStr "n");
               (PInt 20, PStr "y"); (PInt 10, PStr "z")])
    as (Hget & Hret & _).
  destruct Hret as [d Hd].
  - repeat (apply List.Forall_cons; [reflexivity|]). apply List.Forall_nil.
  - exists d. split; [exact Hd|].
    pose proof (Hget d Hd) as H. cbn [map fst snd] in H.
    split; [rewrite H; reflexivity|].
    split; [rewrite H; reflexivity | exact H].
Defined.

(** ** C7 *)




(** ** C5 *)

(** The map branch of the normalizer, handed the first [tags] cell as a
    [pa.MapArray], builds a [dict], and [json.dumps] writes the row that
    holds it as the specification expects: the [int] keys become texts
    there. *)
Example map_array_row_as_object :
  (tags <- convert_arrow_value_to_python
             (MapArray [PInt 10; PInt 20] [PStr "x"; PStr "y"]) ;;
   json_dumps (PDict [(PStr "id", PInt 1); (PStr "tags", tags)]))
  = Ok (quoted "{'id': 1, 'tags': {'10': 'x', '20': 'y'}}").
Proof. vm_compute. reflexivity. Qed.

(** C5 fails on the code: a cell of a table is a [pa.Scalar], so the
    normalizer takes line 58, and [as_py()] gives a map as a list of
    [(key, value)] tuples, which lines 64-65 and 68 leave as it is.  Each
    map is written as an array of two-element arrays, not as an object. *)
Theorem tags_written_as_pairs :
  convert_parquet_to_jsonl tags_file "out/tags.jsonl" ∅
  = (<["out/tags.jsonl" := tags_lines_written]> ∅, Ok 2%nat)
  /\ tags_lines_written <> tags_lines_expected.
Proof.
  split.
  - unfold convert_parquet_to_jsonl. cbn [read tags_file].
    f_equal.
  - vm_compute. discriminate.
Qed.

(** ** C8 *)

Lemma append_inj_r (p s t : string) : p +:+ s = p +:+ t -> s = t.
Proof.
  induction p as [|c p IH]; simpl; intros H; [exact H|].
  inversion H. auto.
Qed.

Lemma append_length (s t : string) :
  String.length (s +:+ t) = (String.length s + String.length t)%nat.
Proof. induction s as [|c s IH]; simpl; [reflexivity | rewrite IH; reflexivity]. Qed.

Lemma append_inj_l (s t x : string) : s +:+ x = t +:+ x -> s = t.
Proof.
  revert t. induction s as [|c s IH]; intros [|c' t] H.
  - reflexivity.
  - apply (f_equal String.length) in H.
    rewrite !append_length in H. cbn [String.length] in H. lia.
  - apply (f_equal String.length) in H.
    rewrite !append_length in H. cbn [String.length] in H. lia.
  - simpl in H. inversion H; subst. f_equal. apply IH. assumption.
Qed.

Lemma jsonl_path_inj (output_dir : string) (a b : ParquetFile) :
  jsonl_path output_dir a = jsonl_path output_dir b -> stem a = stem b.
Proof.
  unfold jsonl_path. intros H.
  apply append_inj_r, append_inj_r in H. apply append_inj_l in H. exact H.
Qed.

Lemma convert_outcome (pf : ParquetFile) (jsonl_file : string)
    (fs : gmap string string) :
  (convert_parquet_to_jsonl pf jsonl_file fs).2 = outcome pf.
Proof.
  unfold outcome, convert_parquet_to_jsonl. destruct (read pf); reflexivity.
Qed.

Lemma convert_files_other (pf : ParquetFile) (jsonl_file p : string)
    (fs : gmap string string) :
  p <> jsonl_file ->
  (convert_parquet_to_jsonl pf jsonl_file fs).1 !! p = fs !! p.
Proof.
  intros Hne. unfold convert_parquet_to_jsonl.
  destruct (read pf); [|reflexivity].
  cbn [fst]. apply lookup_insert_ne. congruence.
Qed.

(** What a file writes at its own path does not depend on the files
    already there, unless it cannot be read, when nothing is written. *)
Lemma convert_files_own (pf : ParquetFile) (jsonl_file : string)
    (fs fs' : gmap string string) :
  fs !! jsonl_file = fs' !! jsonl_file ->
  (convert_parquet_to_jsonl pf jsonl_file fs).1 !! jsonl_file
  = (convert_parquet_to_jsonl pf jsonl_file fs').1 !! jsonl_file.
Proof.
  intros H. unfold convert_parquet_to_jsonl.
  destruct (read pf); [|exact H].
  cbn [fst]. rewrite !lookup_insert_eq. reflexivity.
Qed.

Lemma convert_one_files (output_dir : string) (st : driver_state)
    (pf : ParquetFile) :
  files (convert_one output_dir st pf)
  = (convert_parquet_to_jsonl pf (jsonl_path output_dir pf) (files st)).1.
Proof.
  unfold convert_one.
  destruct ((convert_parquet_to_jsonl pf (jsonl_path output_dir pf)
               (files st)).2); reflexivity.
Qed.

Lemma driver_files_other (output_dir : string) (l : list ParquetFile)
    (st : driver_state) (p : string) :
  (forall pf, pf ∈ l -> jsonl_path output_dir pf <> p) ->
  files (fold_left (convert_one output_dir) l st) !! p = files st !! p.
Proof.
  revert st. induction l as [|x l IH]; intros st H; [reflexivity|].
  cbn [fold_left]. rewrite IH by (intros pf Hpf; apply H; right; exact Hpf).
  rewrite convert_one_files. apply convert_files_other.
  intros E. apply (H x); [left | symmetry; exact E].
Qed.

Lemma driver_files_own (output_dir : string) (l : list ParquetFile)
    (st : driver_state) (pf : ParquetFile) :
  NoDup (map stem l) -> pf ∈ l ->
  files (fold_left (convert_one output_dir) l st) !! jsonl_path output_dir pf
  = (convert_parquet_to_jsonl pf (jsonl_path output_dir pf) (files st)).1
      !! jsonl_path output_dir pf.
Proof.
  revert st. induction l as [|x l IH]; intros st Hnd Hin; [inversion Hin|].
  cbn [map] in Hnd. apply NoDup_cons in Hnd as [Hx Hnd].
  cbn [fold_left]. apply elem_of_cons in Hin as [->|Hin].
  - rewrite driver_files_other; [rewrite convert_one_files; reflexivity|].
    intros pf Hpf E. apply jsonl_path_inj in E. apply Hx. rewrite <- E.
    apply (list_elem_of_fmap_2 stem). exact Hpf.
  - rewrite (IH _ Hnd Hin). apply convert_files_own.
    rewrite convert_one_files. apply convert_files_other.
    intros E. apply jsonl_path_inj in E. apply Hx. rewrite <- E.
    apply (list_elem_of_fmap_2 stem). exact Hin.
Qed.

Lemma driver_counts (output_dir : string) (l : list ParquetFile)
    (st : driver_state) :
  total_rows (fold_left (convert_one output_dir) l st)
  = (total_rows st + sum_list (map rows_converted l))%nat
  /\ stderr (fold_left (convert_one output_dir) l st)
     = stderr st ++ omap failure l.
Proof.
  revert st. induction l as [|x l IH]; intros st.
  - simpl. rewrite app_nil_r. split; [lia | reflexivity].
  - cbn [fold_left]. destruct (IH (convert_one output_dir st x)) as [H1 H2].
    rewrite H1, H2.
    change (omap failure (x :: l))
      with (match failure x with
            | Some y => y :: omap failure l
            | None => omap failure l
            end).
    change (sum_list (map rows_converted (x :: l)))
      with (rows_converted x + sum_list (map rows_converted l))%nat.
    assert (Hx : convert_one output_dir st x
                 = match outcome x with
                   | Ok rows =>
                       {| files := files (convert_one output_dir st x);
                          total_rows := (total_rows st + rows)%nat;
                          stderr := stderr st |}
                   | Raise e =>
                       {| files := files (convert_one output_dir st x);
                          total_rows := total_rows st;
                          stderr := stderr st ++ [(stem x, e)] |}
                   end).
    { unfold convert_one. rewrite convert_outcome.
      destruct (outcome x); reflexivity. }
    rewrite Hx. unfold rows_converted, failure.
    destruct (outcome x); cbn [total_rows stderr].
    + split; [lia | reflexivity].
    + split; [lia | rewrite <- app_assoc; reflexivity].
Qed.

(** C8: the batch driver goes through every file, whatever happens to the
    others.  With file names that differ, each file's output is what its
    own conversion writes (complete, cut short by an exception, or absent
    when the file cannot be read); the rows of the files that convert are
    counted, and each file that fails is reported once, in order. *)
Theorem batch_continues_after_failure (parquet_files : list ParquetFile)
    (output_dir : string) (fs : gmap string string) :
  NoDup (map stem parquet_files) ->
  (forall pf, pf ∈ parquet_files ->
     files (convert_all_parquet_files parquet_files output_dir fs)
       !! jsonl_path output_dir pf
     = (convert_parquet_to_jsonl pf (jsonl_path output_dir pf) fs).1
         !! jsonl_path output_dir pf)
  /\ total_rows (convert_all_parquet_files parquet_files output_dir fs)
     = sum_list (map rows_converted parquet_files)
  /\ stderr (convert_all_parquet_files parquet_files output_dir fs)
     = omap failure parquet_files.
Proof.
  intros Hnd. unfold convert_all_parquet_files. split.
  - intros pf Hpf.
    exact (driver_files_own output_dir parquet_files
             {| files := fs; total_rows := 0; stderr := [] |} pf Hnd Hpf).
  - destruct (driver_counts output_dir parquet_files
                {| files := fs; total_rows := 0; stderr := [] |}) as [H1 H2].
    rewrite H1, H2. split; reflexivity.
Qed.

Lemma batch_continues_after_failure_witness :
  let bad := {| stem := "a"; read := Raise ArrowInvalid |} in
  let st := convert_all_parquet_files [bad; tags_file] "out" ∅ in
  (forall pf, pf ∈ [bad; tags_file] ->
     files st !! jsonl_path "out" pf
     = (convert_parquet_to_jsonl pf (jsonl_path "out" pf) ∅).1
         !! jsonl_path "out" pf)
  /\ total_rows st = sum_list (map rows_converted [bad; tags_file])
  /\ stderr st = omap failure [bad; tags_file].
Proof.
  apply (batch_continues_after_failure
           [{| stem := "a"; read := Raise ArrowInvalid |}; tags_file]
           "out" ∅).
  simpl. apply NoDup_cons. split.
  - intros H. apply list_elem_of_singleton in H. discriminate H.
  - apply NoDup_singleton.
Defined.

(** A file that cannot be read, a file whose table has two columns of one
    name, and the file that follows them: the first is reported and
    leaves no output; the second is reported too, its output file having
    been opened and left empty; the third is converted. *)
Example batch_with_failing_files :
  let twice := {| column_names := ["a"; "a"];
                  columns := [[AInt 1]; [AInt 2]];
                  num_rows := 1 |} in
  let st := convert_all_parquet_files
              [{| stem := "a"; read := Raise ArrowInvalid |};
               {| stem := "b"; read := Ok twice |};
               tags_file]
              "out" ∅ in
  files st !! "out/a.jsonl" = None
  /\ files st !! "out/b.jsonl" = Some EmptyString
  /\ files st !! "out/tags.jsonl" = Some tags_lines_written
  /\ total_rows st = 2%nat
  /\ stderr st = [("a", ArrowInvalid); ("b", KeyError)].
Proof. vm_compute. repeat split; reflexivity. Qed.

(** * The store *)

Section StoreFacts.
Variable fresh_loc : heap -> loc.
Hypothesis fresh_loc_fresh : forall h, h !! fresh_loc h = None.

(** ** Nothing that exists is changed *)

Lemma framed_ret {A : Type} (h0 : heap) (a : A) : framed h0 (ret a).
Proof. intros h h' r Hh H. inversion H; subst. exact Hh. Qed.

Lemma framed_raise {A : Type} (h0 : heap) (e : exn) :
  framed h0 (raise e : M A).
Proof. intros h h' r Hh H. inversion H; subst. exact Hh. Qed.

Lemma framed_stuck {A : Type} (h0 : heap) : framed h0 (stuck : M A).
Proof. intros h h' r Hh H. discriminate H. Qed.

Lemma framed_bind {A B : Type} (h0 : heap) (m : M A) (k : A -> M B) :
  framed h0 m -> (forall a, framed h0 (k a)) -> framed h0 (bindM m k).
Proof.
  intros Hm Hk h h' r Hh H. unfold bindM in H.
  destruct (m h) as [[h1 [a|e]]|] eqn:E; [| |discriminate].
  - exact (Hk a h1 h' r (Hm h h1 _ Hh E) H).
  - inversion H; subst. exact (Hm h h' _ Hh E).
Qed.

Lemma framed_load (h0 : heap) (l : loc) : framed h0 (load l).
Proof.
  intros h h' r Hh H. unfold load in H.
  destruct (h !! l); inversion H; subst. exact Hh.
Qed.

Lemma framed_new_bind {B : Type} (h0 : heap) (o : obj) (k : loc -> M B) :
  (forall r, h0 !! r = None -> framed h0 (k r)) ->
  framed h0 (bindM (new fresh_loc o) k).
Proof.
  intros Hk h h' r Hh H. unfold bindM, new in H.
  assert (Hr : h0 !! fresh_loc h = None)
    by (eapply lookup_weaken_None; [apply fresh_loc_fresh | exact Hh]).
  refine (Hk _ Hr _ h' r _ H).
  apply insert_subseteq_r; assumption.
Qed.

Lemma framed_new (h0 : heap) (o : obj) : framed h0 (new fresh_loc o).
Proof.
  intros h h' r Hh H. unfold new in H. inversion H; subst.
  apply insert_subseteq_r; [|exact Hh].
  eapply lookup_weaken_None; [apply fresh_loc_fresh | exact Hh].
Qed.

Lemma framed_mapM_st {A B : Type} (h0 : heap) (f : A -> M B) (l : list A) :
  Forall (fun x => framed h0 (f x)) l -> framed h0 (mapM_st f l).
Proof.
  induction 1 as [|x l Hx _ IH]; cbn [mapM_st]; [apply framed_ret|].
  apply framed_bind; [exact Hx|]. intros y.
  apply framed_bind; [exact IH|]. intros ys. apply framed_ret.
Qed.

Lemma framed_forM {A : Type} (h0 : heap) (step : A -> M unit) (l : list A) :
  Forall (fun x => framed h0 (step x)) l -> framed h0 (forM l step).
Proof.
  induction 1 as [|x l Hx _ IH]; cbn [forM]; [apply framed_ret|].
  apply framed_bind; [exact Hx|]. intros _. exact IH.
Qed.

Lemma framed_getitem_st {A : Type} (h0 : heap) (l : list A) (i : nat) :
  framed h0 (getitem_st l i).
Proof.
  unfold getitem_st. destruct (l !! i); [apply framed_ret | apply framed_raise].
Qed.

Lemma framed_is_None_st (h0 : heap) (l : loc) : framed h0 (is_None_st l).
Proof.
  apply framed_bind; [apply framed_load|]. intros o. apply framed_ret.
Qed.

Lemma framed_key_st (h0 : heap) (l : loc) : framed h0 (key_st l).
Proof.
  apply framed_bind; [apply framed_load|]. intros [k| |];
    [destruct (hashable k); [apply framed_ret|]|..]; apply framed_raise.
Qed.

(** Storing into a [dict] that [h0] does not hold leaves [h0] as it is. *)
Lemma framed_setitem_st (h0 : heap) (r : loc) (k : pyval) (v : loc) :
  h0 !! r = None -> framed h0 (setitem_st r k v).
Proof.
  intros Hr. apply framed_bind; [apply framed_load|].
  intros [?|?|es]; try apply framed_stuck.
  intros h h' x Hh H. inversion H; subst.
  apply insert_subseteq_r; assumption.
Qed.

Lemma framed_build (h0 : heap) (v : pyval) : framed h0 (build fresh_loc v).
Proof.
  induction v as [ | | | | | elts _ | elts IH | entries IH ]
    using pyval_nested_ind; cbn [build]; try apply framed_new.
  - apply framed_bind; [apply framed_mapM_st, IH|].
    intros ls. apply framed_new.
  - apply framed_bind; [|intros vs; apply framed_new].
    apply framed_mapM_st. eapply Forall_impl; [exact IH|].
    intros kv [_ H]. exact H.
Qed.

Lemma framed_convert_ref (h0 : heap) (fuel : nat) (l : loc) :
  framed h0 (convert_ref fresh_loc fuel l).
Proof.
  revert l. induction fuel as [|fuel IH]; intros l; cbn [convert_ref];
    [apply framed_stuck|].
  apply framed_bind; [apply framed_load|]. intros [v|elts|entries].
  - apply framed_ret.
  - apply framed_bind; [|intros ls; apply framed_new].
    apply framed_mapM_st, Forall_forall. intros x _. apply IH.
  - apply framed_bind; [|intros ls; apply framed_new].
    apply framed_mapM_st, Forall_forall. intros x _. apply IH.
Qed.

Lemma framed_map_step_st (h0 : heap) (fuel : nat) (keys items : list loc)
    (r : loc) (i : nat) :
  h0 !! r = None -> framed h0 (map_step_st fresh_loc fuel keys items r i).
Proof.
  intros Hr. unfold map_step_st.
  apply framed_bind; [apply framed_getitem_st|]. intros k.
  apply framed_bind; [apply framed_is_None_st|]. intros [|];
    [apply framed_ret|].
  apply framed_bind; [apply framed_getitem_st|]. intros item.
  apply framed_bind; [apply framed_convert_ref|]. intros v.
  apply framed_bind; [apply framed_convert_ref|]. intros k'.
  apply framed_bind; [apply framed_key_st|]. intros key.
  apply framed_setitem_st, Hr.
Qed.

(** What [value.field] finds in a table of children made from the fields
    is made from the child of one of the fields. *)
Lemma field_of_map {A B : Type} (F : A -> B) (fields : list (string * A))
    (name : string) (x : B) :
  field (map (fun f => (f.1, F f.2)) fields) name = Ok x ->
  exists c, (name, c) ∈ fields /\ x = F c.
Proof.
  unfold field. intros H.
  destruct (filter _ _) as [|y [|z l]] eqn:E; try discriminate.
  inversion H; subst x; clear H.
  assert (Hy : y ∈ filter (fun f : string * B => String.eqb f.1 name = true)
                          (map (fun f => (f.1, F f.2)) fields))
    by (rewrite E; left).
  apply list_elem_of_filter in Hy as [Hn Hy].
  apply list_elem_of_fmap in Hy as ([n c] & -> & Hin).
  simpl in Hn. apply String.eqb_eq in Hn. subst n.
  exists c. split; [exact Hin | reflexivity].
Qed.

Lemma framed_convert_st (h0 : heap) (fuel : nat) (a : value) :
  framed h0 (convert_st fresh_loc fuel a).
Proof.
  induction a as [v|keys items|pylist|pylist|fields IH|elems|v]
    using value_nested_ind; cbn [convert_st].
  - apply framed_bind; [apply framed_build|]. intros l.
    apply framed_convert_ref.
  - apply framed_bind;
      [apply framed_mapM_st, Forall_forall; intros; apply framed_build|].
    intros keys'. apply framed_bind;
      [apply framed_mapM_st, Forall_forall; intros; apply framed_build|].
    intros items'. apply framed_new_bind. intros r Hr.
    apply framed_bind; [|intros; apply framed_ret].
    apply framed_forM, Forall_forall. intros i _.
    apply framed_map_step_st, Hr.
  - apply framed_bind;
      [apply framed_mapM_st, Forall_forall; intros; apply framed_build|].
    intros elts. apply framed_bind; [|intros; apply framed_new].
    apply framed_mapM_st, Forall_forall. intros; apply framed_convert_ref.
  - apply framed_bind;
      [apply framed_mapM_st, Forall_forall; intros; apply framed_build|].
    intros elts. apply framed_bind; [|intros; apply framed_new].
    apply framed_mapM_st, Forall_forall. intros; apply framed_convert_ref.
  - apply framed_new_bind. intros r Hr.
    apply framed_bind; [|intros; apply framed_ret].
    apply framed_forM, Forall_forall. intros name _.
    unfold struct_step_st.
    destruct (field _ name) as [[b m]|e] eqn:E; [|apply framed_raise].
    apply (field_of_map (fun c => (is_None c, convert_st fresh_loc fuel c)))
      in E as (c & Hc & Heq).
    inversion Heq; subst b m; clear Heq. cbn [fst snd].
    destruct (is_None c); [apply framed_ret|].
    apply framed_bind; [|intros v; apply framed_setitem_st, Hr].
    rewrite Forall_forall in IH. exact (IH _ Hc).
  - destruct elems as [|x [|y rest]].
    + apply framed_new.
    + apply framed_bind; [apply framed_build|]. intros l.
      apply framed_convert_ref.
    + apply framed_bind; [|intros; apply framed_new].
      apply framed_mapM_st, Forall_forall. intros z _.
      apply framed_bind; [apply framed_build|]. intros l.
      apply framed_convert_ref.
  - apply framed_bind; [apply framed_build|]. intros l.
    apply framed_convert_ref.
Qed.

(** ** What is known of the store stays known *)

Lemma Forall2_impl_Forall {A B : Type} (R R' : A -> B -> Prop)
    (xs : list A) (ys : list B) :
  Forall (fun x => forall y, R x y -> R' x y) xs ->
  Forall2 R xs ys -> Forall2 R' xs ys.
Proof.
  intros HF H. induction H as [|x y xs ys Hxy _ IH]; [constructor|].
  apply Forall_cons in HF as [Hx HF]. constructor; auto.
Qed.

Lemma reads_mono (g g' : heap) (v : pyval) (l : loc) :
  g ⊆ g' -> reads g v l -> reads g' v l.
Proof.
  intros Hg. revert l.
  induction v as [ | | | | | elts _ | elts IH | entries IH ]
    using pyval_nested_ind; intros l H; inversion H; subst;
    try discriminate;
    try (apply reads_imm; [assumption | eapply lookup_weaken; eassumption]).
  - eapply reads_list; [eapply lookup_weaken; eassumption|].
    eapply Forall2_impl_Forall; [exact IH | eassumption].
  - eapply reads_dict; [eapply lookup_weaken; eassumption|].
    eapply Forall2_impl_Forall; [|eassumption].
    eapply Forall_impl; [exact IH|].
    intros kv [_ Hv] e [Hk Hr]. split; [exact Hk | apply Hv, Hr].
Qed.

Lemma grows_refl (g h : heap) : g ⊆ h -> grows g h g h.
Proof. intros H. repeat split; auto. Qed.

Lemma grows_trans (g h g1 h1 g2 h2 : heap) :
  grows g h g1 h1 -> grows g1 h1 g2 h2 -> grows g h g2 h2.
Proof.
  intros (Ha & Hb & Hc & Hd) (Ha' & Hb' & Hc' & Hd').
  split; [etrans; eassumption|]. split; [etrans; eassumption|].
  split; [assumption|]. intros x Hx Hgx. apply Hd'.
  - destruct Hx as [o Ho]. exists o. eapply lookup_weaken; eassumption.
  - apply Hd; assumption.
Qed.

Lemma spec_ret {A : Type} (g h : heap) (a : A)
    (Q : heap -> result A -> Prop) :
  g ⊆ h -> Q g (Ok a) -> spec g h (ret a) Q.
Proof.
  intros Hg HQ. exists h, (Ok a), g.
  split; [reflexivity|]. split; [apply grows_refl, Hg | exact HQ].
Qed.

Lemma spec_raise {A : Type} (g h : heap) (e : exn)
    (Q : heap -> result A -> Prop) :
  g ⊆ h -> Q g (Raise e) -> spec g h (raise e) Q.
Proof.
  intros Hg HQ. exists h, (Raise e), g.
  split; [reflexivity|]. split; [apply grows_refl, Hg | exact HQ].
Qed.

Lemma spec_bind {A B : Type} (g h : heap) (m : M A) (k : A -> M B)
    (Q : heap -> result A -> Prop) (Q' : heap -> result B -> Prop) :
  spec g h m Q ->
  (forall g1 e, Q g1 (Raise e) -> Q' g1 (Raise e)) ->
  (forall g1 h1 a, grows g h g1 h1 -> Q g1 (Ok a) -> spec g1 h1 (k a) Q') ->
  spec g h (bindM m k) Q'.
Proof.
  intros (h1 & r & g1 & Hm & Hgr & HQ) Hraise Hk.
  unfold bindM. destruct r as [a|e].
  - destruct (Hk g1 h1 a Hgr HQ) as (h2 & r2 & g2 & Hk2 & Hgr2 & HQ2).
    exists h2, r2, g2. rewrite Hm. split; [exact Hk2|].
    split; [eapply grows_trans; eassumption | exact HQ2].
  - exists h1, (Raise e), g1. rewrite Hm. split; [reflexivity|].
    split; [exact Hgr | apply Hraise, HQ].
Qed.

Lemma spec_new (g h : heap) (o : obj) (Q : heap -> result loc -> Prop) :
  g ⊆ h ->
  (forall l, h !! l = None -> Q (<[l := o]> g) (Ok l)) ->
  spec g h (new fresh_loc o) Q.
Proof.
  intros Hg HQ. pose proof (fresh_loc_fresh h) as Hl.
  assert (Hgl : g !! fresh_loc h = None)
    by (eapply lookup_weaken_None; eassumption).
  exists (<[fresh_loc h := o]> h), (Ok (fresh_loc h)), (<[fresh_loc h := o]> g).
  split; [reflexivity|]. split; [|apply HQ, Hl].
  split; [apply insert_subseteq, Hl|].
  split; [apply insert_subseteq, Hgl|].
  split; [apply insert_mono, Hg|].
  intros x [ox Hx] Hgx. rewrite lookup_insert_ne; [exact Hgx|].
  intros E. rewrite E in Hl. congruence.
Qed.

Lemma spec_load (g h : heap) (l : loc) (o : obj)
    (Q : heap -> result obj -> Prop) :
  g ⊆ h -> g !! l = Some o -> Q g (Ok o) -> spec g h (load l) Q.
Proof.
  intros Hg Hl HQ. exists h, (Ok o), g. unfold load.
  rewrite (lookup_weaken _ _ _ _ Hl Hg).
  split; [reflexivity|]. split; [apply grows_refl, Hg | exact HQ].
Qed.

Lemma grows_known (g h g' h' : heap) : grows g h g' h' -> g' ⊆ h'.
Proof. intros (_ & _ & H & _). exact H. Qed.

Lemma grows_more (g h g' h' : heap) : grows g h g' h' -> g ⊆ g'.
Proof. intros (_ & H & _). exact H. Qed.

(** A comprehension whose element calls meet their specifications. *)
Lemma spec_mapM_st {A V : Type} (f : A -> M loc)
    (Pre : heap -> V -> A -> Prop) (Post : heap -> V -> loc -> Prop) :
  (forall g g' v x, g ⊆ g' -> Pre g v x -> Pre g' v x) ->
  (forall g g' v l, g ⊆ g' -> Post g v l -> Post g' v l) ->
  forall vs xs g h,
    Forall (fun v => forall x g h, g ⊆ h -> Pre g v x ->
                       spec g h (f x)
                            (fun g' r => exists l, r = Ok l /\ Post g' v l)) vs ->
    g ⊆ h -> Forall2 (Pre g) vs xs ->
    spec g h (mapM_st f xs)
         (fun g' r => exists ls, r = Ok ls /\ Forall2 (Post g') vs ls).
Proof.
  intros HPre HPost vs xs g h Hf Hg HF. revert g h Hg HF.
  revert xs. induction Hf as [|v vs Hv _ IH]; intros xs g h Hg HF.
  - inversion HF; subst. cbn [mapM_st]. apply spec_ret; [exact Hg|].
    exists []. split; [reflexivity | constructor].
  - inversion HF as [|? x ? xs' Hx HF']; subst. cbn [mapM_st].
    eapply spec_bind; [apply (Hv x g h Hg Hx)| |].
    + intros g1 e (l & Hl & _). discriminate Hl.
    + intros g1 h1 y Hgr (l & Hl & HP). inversion Hl; subst y; clear Hl.
      eapply spec_bind.
      * apply (IH xs' g1 h1 (grows_known _ _ _ _ Hgr)).
        eapply Forall2_impl; [exact HF'|].
        intros v' x' Hp. eapply HPre; [|exact Hp].
        exact (grows_more _ _ _ _ Hgr).
      * intros g2 e (ls & Hls & _). discriminate Hls.
      * intros g2 h2 ys Hgr2 (ls & Hls & HPs).
        inversion Hls; subst ys; clear Hls.
        apply spec_ret; [exact (grows_known _ _ _ _ Hgr2)|].
        exists (l :: ls). split; [reflexivity|]. constructor; [|exact HPs].
        eapply HPost; [|exact HP]. exact (grows_more _ _ _ _ Hgr2).
Qed.

Lemma entries_zip {V : Type} (R : V -> loc -> Prop)
    (entries : list (pyval * V)) (keys : list pyval) (vs : list loc) :
  keys = map fst entries ->
  Forall2 (fun kv l => R kv.2 l) entries vs ->
  Forall2 (fun kv e => kv.1 = e.1 /\ R kv.2 e.2) entries (zip keys vs).
Proof.
  intros ->. induction 1 as [|kv l entries vs H _ IH]; [constructor|].
  cbn [map zip zip_with]. constructor; [split; [reflexivity | exact H] | exact IH].
Qed.

(** [as_py()] and [to_pylist()] make an object that is the data. *)
Lemma spec_build (v : pyval) (g h : heap) :
  g ⊆ h ->
  spec g h (build fresh_loc v)
       (fun g' r => exists l, r = Ok l /\ reads g' v l).
Proof.
  revert g h.
  induction v as [ | | | | | elts _ | elts IH | entries IH ]
    using pyval_nested_ind; intros g h Hg; cbn [build];
    try (apply spec_new; [exact Hg|]; intros l _; exists l;
         split; [reflexivity|];
         apply reads_imm; [reflexivity | apply lookup_insert_eq]).
  - eapply spec_bind.
    + apply (spec_mapM_st (build fresh_loc) (fun _ v x => v = x)
               (fun g v l => reads g v l)) with (vs := elts);
        [auto | intros; eapply reads_mono; eassumption | | exact Hg |].
      * eapply Forall_impl; [exact IH|]. intros v Hv x g0 h0 Hg0 <-.
        apply Hv, Hg0.
      * clear. induction elts; constructor; auto.
    + intros g1 e (ls & Hls & _). discriminate Hls.
    + intros g1 h1 ls0 Hgr (ls & Hls & HF). inversion Hls; subst ls0; clear Hls.
      apply spec_new; [exact (grows_known _ _ _ _ Hgr)|].
      intros l Hl. exists l. split; [reflexivity|].
      assert (Hgl : g1 !! l = None)
        by (eapply lookup_weaken_None; [exact Hl | exact (grows_known _ _ _ _ Hgr)]).
      eapply reads_list; [apply lookup_insert_eq|].
      eapply Forall2_impl; [exact HF|]. intros v' l' Hr.
      eapply reads_mono; [|exact Hr]. apply insert_subseteq, Hgl.
  - eapply spec_bind.
    + apply (spec_mapM_st (fun kv => build fresh_loc kv.2)
               (fun _ (kv x : pyval * pyval) => kv = x)
               (fun g (kv : pyval * pyval) l => reads g kv.2 l))
        with (vs := entries);
        [auto | intros; eapply reads_mono; eassumption | | exact Hg |].
      * eapply Forall_impl; [exact IH|]. intros kv [_ Hv] x g0 h0 Hg0 <-.
        apply Hv, Hg0.
      * clear. induction entries; constructor; auto.
    + intros g1 e (ls & Hls & _). discriminate Hls.
    + intros g1 h1 ls0 Hgr (ls & Hls & HF). inversion Hls; subst ls0; clear Hls.
      apply spec_new; [exact (grows_known _ _ _ _ Hgr)|].
      intros l Hl. exists l. split; [reflexivity|].
      assert (Hgl : g1 !! l = None)
        by (eapply lookup_weaken_None; [exact Hl | exact (grows_known _ _ _ _ Hgr)]).
      eapply reads_dict; [apply lookup_insert_eq|].
      apply (entries_zip (reads (<[l := _]> g1))); [reflexivity|].
      eapply Forall2_impl; [exact HF|]. intros v' l' Hr.
      eapply reads_mono; [|exact Hr]. apply insert_subseteq, Hgl.
Qed.

Lemma depth_elem (v : pyval) (elts : list pyval) :
  v ∈ elts -> (depth v <= max_list (map depth elts))%nat.
Proof.
  intros H. apply max_list_elem_of_le.
  apply (list_elem_of_fmap_2 depth). exact H.
Qed.

Lemma depth_entry (kv : pyval * pyval) (entries : dict) :
  kv ∈ entries ->
  (depth kv.2 <= max_list (map (fun kv => depth kv.2) entries))%nat.
Proof.
  intros H. apply max_list_elem_of_le.
  apply (list_elem_of_fmap_2 (fun kv : pyval * pyval => depth kv.2)). exact H.
Qed.

Lemma Forall2_keys {V : Type} (R : pyval -> V -> Prop) (d : dict)
    (es : list (pyval * V)) :
  Forall2 (fun kv e => kv.1 = e.1 /\ R kv.2 e.2) d es ->
  map fst es = map fst d.
Proof.
  induction 1 as [|kv e d es [Hk _] _ IH]; [reflexivity|].
  cbn [map]. rewrite Hk, IH. reflexivity.
Qed.

Lemma Forall2_values {V : Type} (R : pyval -> V -> Prop) (d : dict)
    (es : list (pyval * V)) :
  Forall2 (fun kv e => kv.1 = e.1 /\ R kv.2 e.2) d es ->
  Forall2 (fun kv x => R kv.2 x) d (map snd es).
Proof.
  induction 1 as [|kv e d es [_ Hv] _ IH]; [constructor|].
  cbn [map]. constructor; assumption.
Qed.

(** The function on a native object of the store returns an object that
    is the same value. *)
Lemma spec_convert_ref (v : pyval) :
  forall fuel l g h,
    (depth v < fuel)%nat -> g ⊆ h -> reads g v l ->
    spec g h (convert_ref fresh_loc fuel l)
         (fun g' r => exists l', r = Ok l' /\ reads g' v l').
Proof.
  induction v as [ | | | | | elts _ | elts IH | entries IH ]
    using pyval_nested_ind; intros [|fuel] l g h Hd Hg Hr; try lia;
    cbn [convert_ref]; inversion Hr; subst; try discriminate;
    try (eapply spec_bind;
         [eapply (spec_load g h l _ (fun g1 r => r = Ok (OImm _) /\ g1 = g));
          [exact Hg | eassumption | split; reflexivity]
         | intros g1 e [E _]; discriminate E
         | intros g1 h1 o Hgr [E ->]; inversion E; subst o;
           apply spec_ret; [exact (grows_known _ _ _ _ Hgr)|];
           exists l; split; [reflexivity | exact Hr]]).
  - eapply spec_bind;
      [eapply (spec_load g h l _ (fun g1 r => r = Ok (OList ls) /\ g1 = g));
       [exact Hg | eassumption | split; reflexivity]
      | intros g1 e [E _]; discriminate E |].
    intros g1 h1 o Hgr [E ->]. inversion E; subst o; clear E.
    eapply spec_bind.
    + apply (spec_mapM_st (convert_ref fresh_loc fuel)
               (fun g v x => reads g v x) (fun g v l => reads g v l))
        with (vs := elts);
        [intros; eapply reads_mono; eassumption
        |intros; eapply reads_mono; eassumption
        | | exact (grows_known _ _ _ _ Hgr) | eassumption].
      rewrite Forall_forall in IH. apply Forall_forall. intros v Hv x g0 h0 Hg0 Hx.
      apply (IH v Hv); [|exact Hg0 | exact Hx].
      pose proof (depth_elem v elts Hv). cbn [depth] in Hd. lia.
    + intros g2 e (ls' & E & _). discriminate E.
    + intros g2 h2 ls0 Hgr2 (ls' & E & HF). inversion E; subst ls0; clear E.
      apply spec_new; [exact (grows_known _ _ _ _ Hgr2)|].
      intros l' Hl'. exists l'. split; [reflexivity|].
      assert (Hgl : g2 !! l' = None)
        by (eapply lookup_weaken_None; [exact Hl' | exact (grows_known _ _ _ _ Hgr2)]).
      eapply reads_list; [apply lookup_insert_eq|].
      eapply Forall2_impl; [exact HF|]. intros v' x' Hx'.
      eapply reads_mono; [|exact Hx']. apply insert_subseteq, Hgl.
  - eapply spec_bind;
      [eapply (spec_load g h l _ (fun g1 r => r = Ok (ODict es) /\ g1 = g));
       [exact Hg | eassumption | split; reflexivity]
      | intros g1 e [E _]; discriminate E |].
    intros g1 h1 o Hgr [E ->]. inversion E; subst o; clear E.
    eapply spec_bind.
    + apply (spec_mapM_st (convert_ref fresh_loc fuel)
               (fun g (kv : pyval * pyval) x => reads g kv.2 x)
               (fun g (kv : pyval * pyval) l => reads g kv.2 l))
        with (vs := entries);
        [intros; eapply reads_mono; eassumption
        |intros; eapply reads_mono; eassumption
        | | exact (grows_known _ _ _ _ Hgr)
        | apply (Forall2_values (reads g)); eassumption].
      rewrite Forall_forall in IH. apply Forall_forall.
      intros kv Hkv x g0 h0 Hg0 Hx.
      apply (proj2 (IH kv Hkv)); [|exact Hg0 | exact Hx].
      pose proof (depth_entry kv entries Hkv). cbn [depth] in Hd. lia.
    + intros g2 e (ls' & E & _). discriminate E.
    + intros g2 h2 ls0 Hgr2 (ls' & E & HF). inversion E; subst ls0; clear E.
      apply spec_new; [exact (grows_known _ _ _ _ Hgr2)|].
      intros l' Hl'. exists l'. split; [reflexivity|].
      assert (Hgl : g2 !! l' = None)
        by (eapply lookup_weaken_None; [exact Hl' | exact (grows_known _ _ _ _ Hgr2)]).
      eapply reads_dict; [apply lookup_insert_eq|].
      apply (entries_zip (reads (<[l' := _]> g2)));
        [eapply Forall2_keys; eassumption|].
      eapply Forall2_impl; [exact HF|]. intros v' x' Hx'.
      eapply reads_mono; [|exact Hx']. apply insert_subseteq, Hgl.
Qed.

(** ** Loops that fill a new [dict] *)

Lemma bindM_Ok {A B : Type} (m : M A) (k : A -> M B) (h h1 : heap) (a : A) :
  m h = Some (h1, Ok a) -> bindM m k h = k a h1.
Proof. intros H. unfold bindM. rewrite H. reflexivity. Qed.

Lemma bindM_Raise {A B : Type} (m : M A) (k : A -> M B) (h h1 : heap)
    (e : exn) :
  m h = Some (h1, Raise e) -> bindM m k h = Some (h1, Raise e).
Proof. intros H. unfold bindM. rewrite H. reflexivity. Qed.

Lemma forM_sim {A : Type} (pstep : result dict -> A -> result dict)
    (step : A -> M unit) (r : loc) (Known : heap -> Prop) (idx : list A) :
  (forall g g', g ⊆ g' -> Known g -> Known g') ->
  (forall e x, pstep (Raise e) x = Raise e) ->
  (forall x g h d, x ∈ idx -> Known g -> dict_at g h r d ->
                   step_sim g h r (pstep (Ok d) x) (step x)) ->
  forall g h d, Known g -> dict_at g h r d ->
                step_sim g h r (fold_left pstep idx (Ok d)) (forM idx step).
Proof.
  intros Hmono Hraised. induction idx as [|x idx IH]; intros Hstep g h d HK Hat.
  - exists h, (Ok tt), g. cbn [forM fold_left].
    destruct Hat as (Hg & Hr & Hes).
    repeat split; auto.
  - cbn [forM fold_left].
    destruct (Hstep x g h d) as (h1 & o1 & g1 & E1 & Hg1 & Hk1 & Hr1 & Hdom1 & Hnew1 & Hm);
      [left | exact HK | exact Hat |].
    destruct (pstep (Ok d) x) as [d1|e], o1 as [[]|e']; try contradiction.
    + destruct (IH (fun y g0 h0 d0 Hy => Hstep y g0 h0 d0 (list_elem_of_further _ _ _ Hy))
                  g1 h1 d1 (Hmono _ _ Hg1 HK) Hm)
        as (h2 & o2 & g2 & E2 & Hg2 & Hk2 & Hr2 & Hdom2 & Hnew2 & Hm2).
      exists h2, o2, g2. rewrite (bindM_Ok _ _ _ _ _ E1).
      split; [exact E2|]. split; [etrans; eassumption|].
      split; [exact Hk2|]. split; [exact Hr2|].
      split; [auto|]. split; [auto | exact Hm2].
    + subst e'. exists h1, (Raise e), g1. rewrite (bindM_Raise _ _ _ _ _ E1).
      rewrite fold_left_raised by (intros; apply Hraised).
      repeat split; auto.
Qed.

Lemma dict_store_Forall2 {V : Type} (R : pyval -> V -> Prop) (d : dict)
    (es : list (pyval * V)) (k v : pyval) (x : V) :
  Forall2 (fun kv e => kv.1 = e.1 /\ R kv.2 e.2) d es -> R v x ->
  Forall2 (fun kv e => kv.1 = e.1 /\ R kv.2 e.2)
          (dict_store d k v) (dict_store es k x).
Proof.
  intros H Hvx. induction H as [|[k0 v0] [k1 x1] d es [Hk Hv] HF IH];
    cbn [dict_store].
  - constructor; [split; [reflexivity | exact Hvx] | constructor].
  - cbn [fst snd] in Hk, Hv. subst k1.
    destruct (key_eqb k0 k).
    + constructor; [split; [reflexivity | exact Hvx] | exact HF].
    + constructor; [split; [reflexivity | exact Hv] | exact IH].
Qed.

(** The [dict] at [r] after [result[k] = v]. *)
Lemma setitem_st_sim (g h : heap) (r : loc) (d : dict) (k v : pyval)
    (x : loc) :
  dict_at g h r d -> reads g v x ->
  exists h',
    setitem_st r k x h = Some (h', Ok tt)
    /\ (forall y, is_Some (h !! y) -> is_Some (h' !! y))
    /\ dict_at g h' r (dict_store d k v).
Proof.
  intros (Hg & Hr & es & Hes & HF) Hv.
  exists (<[r := ODict (dict_store es k x)]> h).
  unfold setitem_st. rewrite (bindM_Ok _ _ h h (ODict es))
    by (unfold load; rewrite Hes; reflexivity).
  split; [reflexivity|]. split.
  - intros y [o Ho]. destruct (decide (r = y)) as [->|Hne].
    + rewrite lookup_insert_eq. eauto.
    + rewrite lookup_insert_ne by exact Hne. eauto.
  - split; [apply insert_subseteq_r; assumption|]. split; [exact Hr|].
    exists (dict_store es k x). split; [apply lookup_insert_eq|].
    apply dict_store_Forall2; assumption.
Qed.

Lemma dict_at_grows (g h g' h' : heap) (r : loc) (d : dict) :
  dict_at g h r d -> grows g h g' h' -> dict_at g' h' r d.
Proof.
  intros (Hg & Hr & es & Hes & HF) (Hh & Hgg & Hk & Hnew).
  split; [exact Hk|]. split; [apply Hnew; [eauto | exact Hr]|].
  exists es. split; [eapply lookup_weaken; eassumption|].
  eapply Forall2_impl; [exact HF|]. intros kv e [Hke Hre].
  split; [exact Hke | eapply reads_mono; eassumption].
Qed.

Lemma reads_is_None (g h : heap) (v : pyval) (l : loc) :
  g ⊆ h -> reads g v l ->
  is_None_st l h = Some (h, Ok (py_is_None v)).
Proof.
  intros Hg Hr. unfold is_None_st.
  inversion Hr; subst;
    (rewrite (bindM_Ok _ _ h h _)
      by (unfold load; erewrite lookup_weaken by eassumption; reflexivity));
    [destruct v; try discriminate; reflexivity | reflexivity..].
Qed.

Lemma reads_key (g h : heap) (v : pyval) (l : loc) :
  g ⊆ h -> reads g v l ->
  key_st l h = Some (h, if hashable v then Ok v else Raise TypeError).
Proof.
  intros Hg Hr. unfold key_st. inversion Hr; subst.
  - rewrite (bindM_Ok _ _ h h (OImm v))
      by (unfold load; erewrite lookup_weaken by eassumption; reflexivity).
    destruct (hashable v); reflexivity.
  - rewrite (bindM_Ok _ _ h h (OList ls))
      by (unfold load; erewrite lookup_weaken by eassumption; reflexivity).
    reflexivity.
  - rewrite (bindM_Ok _ _ h h (ODict es))
      by (unfold load; erewrite lookup_weaken by eassumption; reflexivity).
    reflexivity.
Qed.

Lemma step_sim_bind {A : Type} (m : M A) (k : A -> M unit)
    (pure : result dict) (g h g1 h1 : heap) (r : loc) (a : A) :
  m h = Some (h1, Ok a) -> grows g h g1 h1 ->
  step_sim g1 h1 r pure (k a) -> step_sim g h r pure (bindM m k).
Proof.
  intros E (Hh & Hg & Hk & Hnew)
         (h2 & o & g2 & E2 & Hg2 & Hk2 & Hr2 & Hdom2 & Hnew2 & Hm).
  exists h2, o, g2. rewrite (bindM_Ok _ _ _ _ _ E).
  split; [exact E2|]. split; [etrans; eassumption|].
  split; [exact Hk2|]. split; [exact Hr2|]. split; [|split; [|exact Hm]].
  - intros x [ox Hx]. apply Hdom2. exists ox. eapply lookup_weaken; eassumption.
  - intros x [ox Hx] Hgx. apply Hnew2.
    + exists ox. eapply lookup_weaken; eassumption.
    + apply Hnew; eauto.
Qed.

Lemma step_sim_raise {A : Type} (m : M A) (k : A -> M unit)
    (g h : heap) (r : loc) (e : exn) :
  m h = Some (h, Raise e) -> g ⊆ h -> g !! r = None ->
  step_sim g h r (Raise e) (bindM m k).
Proof.
  intros E Hg Hr. exists h, (Raise e), g. rewrite (bindM_Raise _ _ _ _ _ E).
  repeat split; auto.
Qed.

Lemma step_sim_ret (g h : heap) (r : loc) (d : dict) :
  dict_at g h r d -> step_sim g h r (Ok d) (ret tt).
Proof.
  intros Hat. pose proof Hat as (Hg & Hr & _).
  exists h, (Ok tt), g. repeat split; auto; apply Hat.
Qed.

(** One round of the loop over a map. *)
Lemma map_step_st_sim (fuel : nat) (keys items : list pyval)
    (lk li : list loc) (r : loc) (i : nat) (g h : heap) (d : dict) :
  Forall (fun v => (depth v < fuel)%nat) keys ->
  Forall (fun v => (depth v < fuel)%nat) items ->
  Forall2 (reads g) keys lk -> Forall2 (reads g) items li ->
  dict_at g h r d ->
  step_sim g h r (map_step keys items (Ok d) i)
           (map_step_st fresh_loc fuel lk li r i).
Proof.
  intros Hdk Hdi Hk Hi Hat. pose proof Hat as (Hg & Hr & es & Hes & HF).
  unfold map_step, map_step_st, getitem, getitem_st. cbn [bind].
  destruct (keys !! i) as [k|] eqn:Ek.
  2:{ assert (lk !! i = None) as ->.
      { apply lookup_ge_None. apply lookup_ge_None in Ek.
        rewrite <- (Forall2_length _ _ _ Hk). exact Ek. }
      apply step_sim_raise; [reflexivity | exact Hg | exact Hr]. }
  destruct (Forall2_lookup_l _ _ _ _ _ Hk Ek) as (kl & Ekl & Hrk).
  rewrite Ekl. cbn [bind].
  eapply step_sim_bind; [reflexivity | apply grows_refl, Hg |].
  eapply step_sim_bind;
    [apply (reads_is_None g h k kl Hg Hrk) | apply grows_refl, Hg |].
  destruct (py_is_None k) eqn:Hnone; [apply step_sim_ret, Hat|].
  destruct (items !! i) as [item|] eqn:Ei.
  2:{ assert (li !! i = None) as ->.
      { apply lookup_ge_None. apply lookup_ge_None in Ei.
        rewrite <- (Forall2_length _ _ _ Hi). exact Ei. }
      apply step_sim_raise; [reflexivity | exact Hg | exact Hr]. }
  destruct (Forall2_lookup_l _ _ _ _ _ Hi Ei) as (il & Eil & Hri).
  rewrite Eil. cbn [bind].
  eapply step_sim_bind; [reflexivity | apply grows_refl, Hg |].
  destruct (spec_convert_ref item fuel il g h)
    as (h1 & o1 & g1 & E1 & Hgr1 & (v & -> & Hv));
    [exact (Forall_lookup_1 _ _ _ _ Hdi Ei) | exact Hg | exact Hri |].
  eapply step_sim_bind; [exact E1 | exact Hgr1 |].
  pose proof Hgr1 as (Hh1 & Hgg1 & Hk1 & Hnew1).
  destruct (spec_convert_ref k fuel kl g1 h1)
    as (h2 & o2 & g2 & E2 & Hgr2 & (k' & -> & Hk'));
    [exact (Forall_lookup_1 _ _ _ _ Hdk Ek) | exact Hk1
    | eapply reads_mono; eassumption |].
  eapply step_sim_bind; [exact E2 | exact Hgr2 |].
  pose proof Hgr2 as (Hh2 & Hgg2 & Hk2 & Hnew2).
  pose proof (dict_at_grows _ _ _ _ _ _
                (dict_at_grows _ _ _ _ _ _ Hat Hgr1) Hgr2) as Hat2.
  pose proof Hat2 as (_ & Hr2 & _).
  rewrite !convert_py_id. unfold dict_setitem.
  pose proof (reads_key g2 h2 k k' Hk2 Hk') as Ekey.
  destruct (hashable k) eqn:Hh.
  - eapply step_sim_bind; [exact Ekey | apply grows_refl, Hk2 |].
    destruct (setitem_st_sim g2 h2 r d k item v Hat2)
      as (h3 & E3 & Hdom3 & Hat3);
      [eapply reads_mono; eassumption|].
    pose proof Hat3 as (Hg3 & Hr3 & _).
    exists h3, (Ok tt), g2. repeat split; auto; try apply Hat3.
  - apply step_sim_raise; [exact Ekey | exact Hk2 | exact Hr2].
Qed.

Lemma step_sim_raise_grown {A : Type} (m : M A) (k : A -> M unit)
    (g h g1 h1 : heap) (r : loc) (e : exn) :
  m h = Some (h1, Raise e) -> grows g h g1 h1 ->
  g !! r = None -> is_Some (h !! r) ->
  step_sim g h r (Raise e) (bindM m k).
Proof.
  intros E (Hh & Hg & Hk & Hnew) Hr Hin.
  exists h1, (Raise e), g1. rewrite (bindM_Raise _ _ _ _ _ E).
  repeat split; auto.
  intros x [ox Hx]. exists ox. eapply lookup_weaken; eassumption.
Qed.

Lemma field_map {A B : Type} (F : A -> B) (fields : list (string * A))
    (name : string) :
  field (map (fun f => (f.1, F f.2)) fields) name
  = match field fields name with
    | Ok c => Ok (F c)
    | Raise e => Raise e
    end.
Proof.
  unfold field.
  assert (H : filter (fun f : string * B => String.eqb f.1 name = true)
                     (map (fun f => (f.1, F f.2)) fields)
              = map (fun f => (f.1, F f.2))
                    (filter (fun f : string * A => String.eqb f.1 name = true)
                            fields)).
  { induction fields as [|f fields IH]; [reflexivity|]. cbn [map].
    destruct (String.eqb f.1 name) eqn:E.
    - rewrite !filter_cons_True by exact E. cbn [map]. rewrite IH. reflexivity.
    - rewrite !filter_cons_False by (cbn [fst]; rewrite E; discriminate).
      exact IH. }
  rewrite H. destruct (filter _ fields) as [|f [|f' l]]; reflexivity.
Qed.

Lemma field_elem {A : Type} (fields : list (string * A)) (name : string)
    (c : A) :
  field fields name = Ok c -> (name, c) ∈ fields.
Proof.
  unfold field. intros H.
  destruct (filter _ fields) as [|[n c'] [|z l]] eqn:E; try discriminate.
  inversion H; subst c'; clear H.
  assert (Hy : (n, c) ∈ filter (fun f : string * A => String.eqb f.1 name = true)
                               fields) by (rewrite E; left).
  apply list_elem_of_filter in Hy as [Hn Hy].
  simpl in Hn. apply String.eqb_eq in Hn. subst n. exact Hy.
Qed.

(** One round of the loop over a struct. *)
Lemma struct_step_st_sim (fuel : nat) (fields : list (string * value))
    (r : loc) (name : string) (g h : heap) (d : dict) :
  (forall n c g h, (n, c) ∈ fields -> g ⊆ h ->
     spec g h (convert_st fresh_loc fuel c)
          (fun g' o => outcome_is g' (convert_arrow_value_to_python c) o)) ->
  dict_at g h r d ->
  step_sim g h r
    (struct_step
       (map (fun f => (f.1, (is_None f.2, convert_arrow_value_to_python f.2)))
            fields) (Ok d) name)
    (struct_step_st
       (map (fun f => (f.1, (is_None f.2, convert_st fresh_loc fuel f.2)))
            fields) r name).
Proof.
  intros Hc Hat. pose proof Hat as (Hg & Hr & es & Hes & HF).
  unfold struct_step, struct_step_st. cbn [bind].
  rewrite (field_map (fun c => (is_None c, convert_arrow_value_to_python c))).
  rewrite (field_map (fun c => (is_None c, convert_st fresh_loc fuel c))).
  destruct (field fields name) as [c|e] eqn:E; cbn [bind fst snd].
  2:{ exists h, (Raise e), g. repeat split; auto. }
  destruct (is_None c); [apply step_sim_ret, Hat|].
  destruct (Hc name c g h (field_elem _ _ _ E) Hg)
    as (h1 & o1 & g1 & E1 & Hgr1 & Hout).
  destruct (convert_arrow_value_to_python c) as [v|e], o1 as [l|e'];
    try contradiction; cbn [outcome_is bind] in *.
  - eapply step_sim_bind; [exact E1 | exact Hgr1 |].
    pose proof (dict_at_grows _ _ _ _ _ _ Hat Hgr1) as Hat1.
    destruct (setitem_st_sim g1 h1 r d (PStr name) v l Hat1 Hout)
      as (h2 & E2 & Hdom2 & Hat2).
    pose proof Hat2 as (Hg2 & Hr2 & _). pose proof Hat1 as (Hg1 & _).
    unfold dict_setitem. cbn [hashable].
    exists h2, (Ok tt), g1. repeat split; auto; try apply Hat2.
  - subst e'. eapply step_sim_raise_grown; eauto.
Qed.

Lemma spec_conseq {A : Type} (g h : heap) (m : M A)
    (Q Q' : heap -> result A -> Prop) :
  spec g h m Q -> (forall g' r, Q g' r -> Q' g' r) -> spec g h m Q'.
Proof.
  intros (h' & r & g' & E & Hgr & HQ) H. exists h', r, g'. auto.
Qed.

(** A new [dict] filled by a loop whose rounds do what the rounds on
    values do. *)
Lemma spec_dict_loop {A : Type} (pstep : result dict -> A -> result dict)
    (step : loc -> A -> M unit) (Known : heap -> Prop) (idx : list A)
    (g h : heap) :
  (forall g g', g ⊆ g' -> Known g -> Known g') ->
  (forall e x, pstep (Raise e) x = Raise e) ->
  (forall h0 r x, h0 !! r = None -> framed h0 (step r x)) ->
  (forall r x g h d, x ∈ idx -> Known g -> dict_at g h r d ->
                     step_sim g h r (pstep (Ok d) x) (step r x)) ->
  Known g -> g ⊆ h ->
  spec g h
       (result <<- new fresh_loc (ODict []) ;;
        _ <<- forM idx (step result) ;;
        ret result)
       (fun g' o =>
          outcome_is g' (d <- fold_left pstep idx (Ok []) ;; Ok (PDict d)) o).
Proof.
  intros Hmono Hraised Hframed Hstep HK Hg.
  pose proof (fresh_loc_fresh h) as Hfresh.
  set (r := fresh_loc h) in *.
  assert (Hgr : g !! r = None) by (eapply lookup_weaken_None; eassumption).
  assert (Hat : dict_at g (<[r := ODict []]> h) r []).
  { split; [apply insert_subseteq_r; assumption|]. split; [exact Hgr|].
    exists []. split; [apply lookup_insert_eq | constructor]. }
  destruct (forM_sim pstep (step r) r Known idx Hmono Hraised
              (fun x g0 h0 d0 => Hstep r x g0 h0 d0) g _ [] HK Hat)
    as (h2 & o & g2 & E & Hg2 & Hk2 & Hr2 & Hdom2 & Hnew2 & Hm).
  assert (Hh2 : h ⊆ h2).
  { refine (framed_forM h (step r) idx _ _ h2 o _ E).
    - apply Forall_forall. intros x _. apply Hframed, Hfresh.
    - apply insert_subseteq, Hfresh. }
  assert (Hnew : forall x, is_Some (h !! x) -> g !! x = None -> g2 !! x = None).
  { intros x [ox Hx] Hgx. apply Hnew2; [|exact Hgx].
    exists ox. rewrite lookup_insert_ne; [exact Hx|].
    intros <-. rewrite Hfresh in Hx. discriminate Hx. }
  assert (Erun : (result <<- new fresh_loc (ODict []) ;;
                  _ <<- forM idx (step result) ;; ret result) h
                 = match o with
                   | Ok _ => Some (h2, Ok r)
                   | Raise e => Some (h2, Raise e)
                   end).
  { unfold bindM at 1. unfold new. fold r. unfold bindM. rewrite E.
    destruct o; reflexivity. }
  destruct (fold_left pstep idx (Ok [])) as [d|e], o as [[]|e'];
    try contradiction; cbn [bind outcome_is].
  - destruct Hm as (_ & _ & es & Hes & HF).
    exists h2, (Ok r), (<[r := ODict es]> g2). split; [exact Erun|]. split.
    + split; [exact Hh2|]. split; [etrans; [exact Hg2 | apply insert_subseteq, Hr2]|].
      split; [apply insert_subseteq_l; assumption|].
      intros x Hx Hgx. rewrite lookup_insert_ne; [apply Hnew; assumption|].
      intros <-. destruct Hx as [ox Hx]. rewrite Hfresh in Hx. discriminate Hx.
    + eapply reads_dict; [apply lookup_insert_eq|].
      eapply Forall2_impl; [exact HF|]. intros kv e [Hk Hv].
      split; [exact Hk|]. eapply reads_mono; [|exact Hv].
      apply insert_subseteq, Hr2.
  - subst e'. exists h2, (Raise e), g2. split; [exact Erun|].
    split; [|reflexivity]. repeat split; auto.
Qed.

Lemma spec_build_all (l : list pyval) (g h : heap) :
  g ⊆ h ->
  spec g h (mapM_st (build fresh_loc) l)
       (fun g' r => exists ls, r = Ok ls /\ Forall2 (reads g') l ls).
Proof.
  intros Hg.
  apply (spec_mapM_st (build fresh_loc) (fun _ v x => v = x)
           (fun g v l => reads g v l)) with (vs := l);
    [auto | intros; eapply reads_mono; eassumption | | exact Hg |].
  - apply Forall_forall. intros v _ x g0 h0 Hg0 <-. apply spec_build, Hg0.
  - clear. induction l; constructor; auto.
Qed.

Lemma spec_build_convert (fuel : nat) (v : pyval) (g h : heap) :
  (depth v < fuel)%nat -> g ⊆ h ->
  spec g h (l <<- build fresh_loc v ;; convert_ref fresh_loc fuel l)
       (fun g' r => exists l', r = Ok l' /\ reads g' v l').
Proof.
  intros Hd Hg. eapply spec_bind; [apply spec_build, Hg| |].
  - intros g1 e (l & E & _). discriminate E.
  - intros g1 h1 l0 Hgr (l & E & Hr). inversion E; subst l0; clear E.
    apply spec_convert_ref; [exact Hd | exact (grows_known _ _ _ _ Hgr) | exact Hr].
Qed.

Lemma depth_child (n : string) (c : value) (fields : list (string * value)) :
  (n, c) ∈ fields ->
  (depth_value c <= max_list (map (fun f => depth_value f.2) fields))%nat.
Proof.
  intros H. apply max_list_elem_of_le.
  apply (list_elem_of_fmap_2 (fun f : string * value => depth_value f.2)) in H.
  exact H.
Qed.

Lemma depth_all (l : list pyval) (fuel : nat) :
  (max_list (map depth l) < fuel)%nat ->
  Forall (fun v => (depth v < fuel)%nat) l.
Proof.
  intros H. apply Forall_forall. intros v Hv.
  pose proof (depth_elem v l Hv). lia.
Qed.

(** The function on the store does what the function on values does. *)
Lemma spec_convert_st (a : value) :
  forall fuel g h,
    (depth_value a < fuel)%nat -> g ⊆ h ->
    spec g h (convert_st fresh_loc fuel a)
         (fun g' o => outcome_is g' (convert_arrow_value_to_python a) o).
Proof.
  induction a as [v|keys items|pylist|pylist|fields IH|elems|v]
    using value_nested_ind; intros fuel g h Hd Hg;
    cbn [convert_st depth_value] in *.
  - eapply spec_conseq; [apply spec_build_convert; assumption|].
    intros g' r (l & -> & Hr). rewrite convert_Py. exact Hr.
  - eapply spec_bind; [apply spec_build_all, Hg| |].
    { intros g1 e (l & E & _). discriminate E. }
    intros g1 h1 lk0 Hgr1 (lk & E & Hk). inversion E; subst lk0; clear E.
    eapply spec_bind; [apply spec_build_all, (grows_known _ _ _ _ Hgr1)| |].
    { intros g2 e (l & E & _). discriminate E. }
    intros g2 h2 li0 Hgr2 (li & E & Hi). inversion E; subst li0; clear E.
    rewrite <- (Forall2_length _ _ _ Hk).
    apply (spec_dict_loop (map_step keys items)
             (fun r => map_step_st fresh_loc fuel lk li r)
             (fun g => Forall2 (reads g) keys lk /\ Forall2 (reads g) items li)).
    + intros g0 g0' Hg0 [H1 H2]. split;
        (eapply Forall2_impl; [eassumption|]; intros; eapply reads_mono; eassumption).
    + intros e x. reflexivity.
    + intros h0 r x Hr. apply framed_map_step_st, Hr.
    + intros r x g0 h0 d _ [H1 H2] Hat.
      apply map_step_st_sim; try assumption; apply depth_all; lia.
    + split; [|exact Hi]. eapply Forall2_impl; [exact Hk|].
      intros; eapply reads_mono; [|eassumption]. exact (grows_more _ _ _ _ Hgr2).
    + exact (grows_known _ _ _ _ Hgr2).
  - eapply spec_bind; [apply spec_build_all, Hg| |].
    { intros g1 e (l & E & _). discriminate E. }
    intros g1 h1 ls0 Hgr1 (ls & E & Hl). inversion E; subst ls0; clear E.
    eapply spec_bind.
    + apply (spec_mapM_st (convert_ref fresh_loc fuel)
               (fun g v x => reads g v x) (fun g v l => reads g v l))
        with (vs := pylist);
        [intros; eapply reads_mono; eassumption
        |intros; eapply reads_mono; eassumption
        | | exact (grows_known _ _ _ _ Hgr1) | exact Hl].
      eapply Forall_impl; [apply depth_all, Hd|].
      intros v Hv x g0 h0 Hg0 Hx. apply spec_convert_ref; assumption.
    + intros g2 e (l & E & _). discriminate E.
    + intros g2 h2 ls0 Hgr2 (ls' & E & Hl'). inversion E; subst ls0; clear E.
      apply spec_new; [exact (grows_known _ _ _ _ Hgr2)|].
      intros l Hl0. cbn [convert_arrow_value_to_python outcome_is].
      rewrite map_convert_py_id.
      assert (Hgl : g2 !! l = None)
        by (eapply lookup_weaken_None; [exact Hl0 | exact (grows_known _ _ _ _ Hgr2)]).
      eapply reads_list; [apply lookup_insert_eq|].
      eapply Forall2_impl; [exact Hl'|]. intros v' x' Hx'.
      eapply reads_mono; [|exact Hx']. apply insert_subseteq, Hgl.
  - eapply spec_bind; [apply spec_build_all, Hg| |].
    { intros g1 e (l & E & _). discriminate E. }
    intros g1 h1 ls0 Hgr1 (ls & E & Hl). inversion E; subst ls0; clear E.
    eapply spec_bind.
    + apply (spec_mapM_st (convert_ref fresh_loc fuel)
               (fun g v x => reads g v x) (fun g v l => reads g v l))
        with (vs := pylist);
        [intros; eapply reads_mono; eassumption
        |intros; eapply reads_mono; eassumption
        | | exact (grows_known _ _ _ _ Hgr1) | exact Hl].
      eapply Forall_impl; [apply depth_all, Hd|].
      intros v Hv x g0 h0 Hg0 Hx. apply spec_convert_ref; assumption.
    + intros g2 e (l & E & _). discriminate E.
    + intros g2 h2 ls0 Hgr2 (ls' & E & Hl'). inversion E; subst ls0; clear E.
      apply spec_new; [exact (grows_known _ _ _ _ Hgr2)|].
      intros l Hl0. cbn [convert_arrow_value_to_python outcome_is].
      rewrite map_convert_py_id.
      assert (Hgl : g2 !! l = None)
        by (eapply lookup_weaken_None; [exact Hl0 | exact (grows_known _ _ _ _ Hgr2)]).
      eapply reads_list; [apply lookup_insert_eq|].
      eapply Forall2_impl; [exact Hl'|]. intros v' x' Hx'.
      eapply reads_mono; [|exact Hx']. apply insert_subseteq, Hgl.
  - apply (spec_dict_loop
             (struct_step
                (map (fun f => (f.1, (is_None f.2,
                                      convert_arrow_value_to_python f.2)))
                     fields))
             (fun r => struct_step_st
                (map (fun f => (f.1, (is_None f.2,
                                      convert_st fresh_loc fuel f.2)))
                     fields) r)
             (fun _ => True)); auto.
    + intros h0 r name Hr. unfold struct_step_st.
      destruct (field _ name) as [[b m]|e] eqn:E; [|apply framed_raise].
      apply (field_of_map (fun c => (is_None c, convert_st fresh_loc fuel c)))
        in E as (c & Hc & Heq).
      inversion Heq; subst b m; clear Heq. cbn [fst snd].
      destruct (is_None c); [apply framed_ret|].
      apply framed_bind; [apply framed_convert_st; assumption|].
      intros v. apply framed_setitem_st, Hr.
    + intros r name g0 h0 d _ _ Hat. apply struct_step_st_sim; [|exact Hat].
      intros n c g1 h1 Hc Hg1. rewrite Forall_forall in IH.
      apply (IH (n, c) Hc); [|exact Hg1].
      pose proof (depth_child n c fields Hc). cbn [snd]. lia.
  - destruct elems as [|x [|y rest]].
    + apply spec_new; [exact Hg|]. intros l _. cbn [outcome_is].
      apply reads_imm; [reflexivity | apply lookup_insert_eq].
    + eapply spec_conseq; [apply spec_build_convert; [|exact Hg]|].
      * simpl in Hd. lia.
      * intros g' r (l & -> & Hr).
        cbn [convert_arrow_value_to_python outcome_is].
        rewrite convert_py_id. exact Hr.
    + remember (x :: y :: rest) as elems eqn:Eelems.
      replace (convert_arrow_value_to_python (Array elems))
        with (Ok (PList elems) : result pyval)
        by (subst elems; cbn [convert_arrow_value_to_python];
            rewrite map_convert_py_id; reflexivity).
      replace (match elems with
               | [] => new fresh_loc (OImm PNone)
               | [x0] => l <<- build fresh_loc x0 ;; convert_ref fresh_loc fuel l
               | _ => ls <<- mapM_st (fun x0 => l <<- build fresh_loc x0 ;;
                                               convert_ref fresh_loc fuel l)
                                     elems ;;
                      new fresh_loc (OList ls)
               end)
        with (ls <<- mapM_st (fun x0 => l <<- build fresh_loc x0 ;;
                                        convert_ref fresh_loc fuel l) elems ;;
              new fresh_loc (OList ls))
        by (subst elems; reflexivity).
      clear Eelems. eapply spec_bind.
      * apply (spec_mapM_st _ (fun _ (v x : pyval) => v = x)
                 (fun g v l => reads g v l)) with (vs := elems);
          [auto | intros; eapply reads_mono; eassumption | | exact Hg |].
        -- eapply Forall_impl; [apply depth_all, Hd|].
           intros v Hv x0 g0 h0 Hg0 <-. apply spec_build_convert; assumption.
        -- clear. induction elems; constructor; auto.
      * intros g2 e (l & E & _). discriminate E.
      * intros g2 h2 ls0 Hgr2 (ls' & E & Hl'). inversion E; subst ls0; clear E.
        apply spec_new; [exact (grows_known _ _ _ _ Hgr2)|].
        intros l Hl0. cbn [outcome_is].
        assert (Hgl : g2 !! l = None)
          by (eapply lookup_weaken_None; [exact Hl0 | exact (grows_known _ _ _ _ Hgr2)]).
        eapply reads_list; [apply lookup_insert_eq|].
        eapply Forall2_impl; [exact Hl'|]. intros v' x' Hx'.
        eapply reads_mono; [|exact Hx']. apply insert_subseteq, Hgl.
  - eapply spec_conseq; [apply spec_build_convert; assumption|].
    intros g' r (l & -> & Hr). rewrite convert_Scalar. exact Hr.
Qed.

(** A run of the function on the store, seen from outside. *)
Lemma convert_st_run (fuel : nat) (a : value) (h : heap) :
  (depth_value a < fuel)%nat ->
  exists h' o,
    convert_st fresh_loc fuel a h = Some (h', o)
    /\ h ⊆ h'
    /\ outcome_is h' (convert_arrow_value_to_python a) o.
Proof.
  intros Hd.
  destruct (spec_convert_st a fuel h h Hd (reflexivity h))
    as (h' & o & g' & E & (Hh & _ & Hk & _) & Hout).
  exists h', o. split; [exact E|]. split; [exact Hh|].
  destruct (convert_arrow_value_to_python a) as [v|e], o as [l|e'];
    try contradiction; cbn [outcome_is] in *; [|exact Hout].
  eapply reads_mono; eassumption.
Qed.

Lemma convert_ref_run (fuel : nat) (v : pyval) (l : loc) (h : heap) :
  reads h v l -> (depth v < fuel)%nat ->
  exists h' l',
    convert_ref fresh_loc fuel l h = Some (h', Ok l')
    /\ h ⊆ h' /\ reads h' v l'.
Proof.
  intros Hr Hd.
  destruct (spec_convert_ref v fuel l h h Hd (reflexivity h) Hr)
    as (h' & o & g' & E & (Hh & _ & Hk & _) & (l' & -> & Hr')).
  exists h', l'. split; [exact E|]. split; [exact Hh|].
  eapply reads_mono; eassumption.
Qed.

End StoreFacts.

Lemma first_free_fresh (h : heap) : h !! first_free h = None.
Proof.
  apply (not_elem_of_dom (D := gset loc)). unfold first_free. apply is_fresh.
Qed.

Lemma Forall2_inj_l {A B : Type} (R : A -> B -> Prop) (xs xs' : list A)
    (ys : list B) :
  Forall (fun x => forall x' y, R x y -> R x' y -> x = x') xs ->
  Forall2 R xs ys -> Forall2 R xs' ys -> xs = xs'.
Proof.
  intros HF H. revert xs' HF.
  induction H as [|x y xs ys Hxy _ IH]; intros xs' HF H';
    inversion H' as [|x' ? xs'' ? Hxy' H'']; subst; [reflexivity|].
  apply Forall_cons in HF as [Hx HF].
  f_equal; [exact (Hx x' y Hxy Hxy') | apply IH; assumption].
Qed.

(** An object of the store is one value at most. *)
Lemma reads_inj (g : heap) (v v' : pyval) (l : loc) :
  reads g v l -> reads g v' l -> v = v'.
Proof.
  revert v' l.
  induction v as [ | | | | | elts _ | elts IH | entries IH ]
    using pyval_nested_ind; intros v' l H H';
    inversion H as [v0 l0 Hc Hl | elts0 ls l0 Hl HF | entries0 es l0 Hl HF];
    subst; try discriminate;
    inversion H' as [v0 l0 Hc' Hl' | elts0 ls' l0 Hl' HF'
                    | entries0 es' l0 Hl' HF'];
    subst; try congruence.
  - assert (ls' = ls) by congruence. subst ls'. f_equal.
    apply (Forall2_inj_l (reads g) elts elts0 ls); [|assumption..].
    eapply Forall_impl; [exact IH|]. intros x Hx x' y Hxy Hxy'.
    exact (Hx x' y Hxy Hxy').
  - assert (es' = es) by congruence. subst es'. f_equal.
    apply (Forall2_inj_l
             (fun (kv : pyval * pyval) (e : pyval * loc) =>
                kv.1 = e.1 /\ reads g kv.2 e.2) entries entries0 es);
      [|assumption..].
    eapply Forall_impl; [exact IH|].
    intros [k x] [_ Hx] [k' x'] e [Hk Hxy] [Hk' Hxy']. cbn [fst snd] in *.
    f_equal; [congruence | exact (Hx x' e.2 Hxy Hxy')].
Qed.

(** ** C9 *)

(** C9: the normalizer is deterministic and changes nothing.  Two runs on
    the same value, from any two stores and with any two ways of choosing
    addresses, both return, or both raise the same exception; what they
    return is, in each store, the value the function on values gives.
    Each run leaves every object that was in its store as it was: the
    only objects written are those the run itself creates.  A native
    object handed over in the store is returned as a value equal to it,
    and is not changed either. *)
Theorem convert_deterministic_and_pure (alloc1 alloc2 : heap -> loc)
    (fuel1 fuel2 : nat) (a : value) (h1 h2 : heap) :
  (forall h, h !! alloc1 h = None) ->
  (forall h, h !! alloc2 h = None) ->
  (depth_value a < fuel1)%nat ->
  (depth_value a < fuel2)%nat ->
  (exists h1' o1 h2' o2,
     convert_st alloc1 fuel1 a h1 = Some (h1', o1)
     /\ convert_st alloc2 fuel2 a h2 = Some (h2', o2)
     /\ h1 ⊆ h1' /\ h2 ⊆ h2'
     /\ outcome_is h1' (convert_arrow_value_to_python a) o1
     /\ outcome_is h2' (convert_arrow_value_to_python a) o2)
  /\ (forall v l,
        reads h1 v l -> (depth v < fuel1)%nat ->
        exists h' l',
          convert_ref alloc1 fuel1 l h1 = Some (h', Ok l')
          /\ h1 ⊆ h' /\ reads h' v l').
Proof.
  intros Hf1 Hf2 Hd1 Hd2. split.
  - destruct (convert_st_run alloc1 Hf1 fuel1 a h1 Hd1) as (h1' & o1 & E1 & Hh1 & Ho1).
    destruct (convert_st_run alloc2 Hf2 fuel2 a h2 Hd2) as (h2' & o2 & E2 & Hh2 & Ho2).
    exists h1', o1, h2', o2. auto 10.
  - intros v l Hr Hd. apply convert_ref_run; assumption.
Qed.

Lemma convert_deterministic_and_pure_witness :
  (exists h1' o1 h2' o2,
     convert_st first_free 2
       (MapArray [PInt 10; PNone] [PList [PStr "x"]; PInt 0]) ∅
     = Some (h1', o1)
     /\ convert_st first_free 5
          (MapArray [PInt 10; PNone] [PList [PStr "x"]; PInt 0])
          {[ 7%positive := OList [] ]}
        = Some (h2', o2)
     /\ ∅ ⊆ h1' /\ {[ 7%positive := OList [] ]} ⊆ h2'
     /\ outcome_is h1'
          (convert_arrow_value_to_python
             (MapArray [PInt 10; PNone] [PList [PStr "x"]; PInt 0])) o1
     /\ outcome_is h2'
          (convert_arrow_value_to_python
             (MapArray [PInt 10; PNone] [PList [PStr "x"]; PInt 0])) o2)
  /\ (forall v l,
        reads ∅ v l -> (depth v < 2)%nat ->
        exists h' l',
          convert_ref first_free 2 l ∅ = Some (h', Ok l')
          /\ ∅ ⊆ h' /\ reads h' v l').
Proof.
  apply (convert_deterministic_and_pure first_free first_free 2 5
           (MapArray [PInt 10; PNone] [PList [PStr "x"]; PInt 0])
           ∅ {[ 7%positive := OList [] ]}).
  - exact first_free_fresh.
  - exact first_free_fresh.
  - vm_compute. lia.
  - vm_compute. lia.
Defined.

(** A list of the store normalized in place of a value: the list and its
    element stay where they are, and a new list is returned. *)
Example convert_ref_leaves_its_argument :
  let h : heap := {[ 1%positive := OList [2%positive];
                     2%positive := OImm (PInt 3) ]} in
  exists h',
    convert_ref first_free 3 1%positive h = Some (h', Ok 3%positive)
    /\ h' !! 1%positive = Some (OList [2%positive])
    /\ h' !! 2%positive = Some (OImm (PInt 3))
    /\ h' !! 3%positive = Some (OList [2%positive]).
Proof.
  eexists. split; [vm_compute; reflexivity|].
  repeat split; vm_compute; reflexivity.
Qed.

(** * Further properties of the code *)

(** [NoDup] of a list of names that are written out. *)
Ltac distinct_names :=
  simpl;
  repeat (apply NoDup_cons_2;
          [ let H := fresh in
            intros H;
            repeat (apply elem_of_cons in H as [H|H]; [discriminate H|]);
            inversion H
          | ]);
  apply NoDup_nil_2.

(** ** The normalizer: values that need no conversion *)

(** X1: on a native object, on a scalar and on a list array of either
    index width the normalizer returns a value equal to the object, to
    [as_py()] and to the list [to_pylist()]: every nested list and [dict]
    is rebuilt with the same elements, keys and order, and an empty list
    stays an empty list. *)
Theorem plain_values_returned (v : pyval) (pylist : list pyval) :
  convert_arrow_value_to_python (Py v) = Ok v
  /\ convert_arrow_value_to_python (Scalar v) = Ok v
  /\ convert_arrow_value_to_python (ListArray pylist) = Ok (PList pylist)
  /\ convert_arrow_value_to_python (LargeListArray pylist)
     = Ok (PList pylist).
Proof.
  cbn [convert_arrow_value_to_python].
  rewrite convert_py_id, map_convert_py_id. auto.
Qed.

(** ** The normalizer: the keys of a map *)

Lemma dict_store_keys {V : Type} (d : list (pyval * V)) (k : pyval) (v : V) :
  map fst (dict_store d k v)
  = if existsb (fun k0 => key_eqb k0 k) (map fst d)
    then map fst d else map fst d ++ [k].
Proof.
  induction d as [|[k0 v0] d IH]; [reflexivity|].
  cbn [dict_store map fst existsb]. destruct (key_eqb k0 k); [reflexivity|].
  cbn [orb map fst]. rewrite IH.
  destruct (existsb _ (map fst d)); reflexivity.
Qed.

Lemma map_pairs_dict_keys (keys items : list pyval) (d0 d : dict) :
  map_pairs keys items d0 = Ok d ->
  map fst d = dict_keys_from (map fst d0) keys.
Proof.
  revert items d0. induction keys as [|k keys IH]; intros items d0 H.
  - inversion H; subst. reflexivity.
  - cbn [map_pairs dict_keys_from] in *. destruct (py_is_None k).
    + exact (IH _ _ H).
    + destruct items as [|item items]; [discriminate|].
      apply bind_inv_Ok in H as (r & Hr & H).
      unfold dict_setitem in Hr. destruct (hashable k); [|discriminate].
      inversion Hr; subst r; clear Hr.
      rewrite (IH _ _ H), dict_store_keys.
      destruct (existsb _ (map fst d0)); reflexivity.
Qed.

(** X2: the keys of the [dict] built for a map are the source keys that are
    not [None], each once, in the order of their first appearance: a
    repeated key keeps the place of its first pair, whatever the values. *)
Theorem map_keys_in_first_appearance_order (keys items : list pyval)
    (d : dict) :
  convert_arrow_value_to_python (MapArray keys items) = Ok (PDict d) ->
  map fst d = dict_keys_from [] keys.
Proof.
  rewrite convert_MapArray. intros H.
  apply bind_inv_Ok in H as (d' & Hd & H). inversion H; subst d'; clear H.
  exact (map_pairs_dict_keys keys items [] d Hd).
Qed.

Lemma map_keys_in_first_appearance_order_witness :
  map fst [(PStr "b", PInt 4); (PStr "a", PInt 2)]
  = dict_keys_from [] [PStr "b"; PStr "a"; PNone; PStr "b"].
Proof.
  apply (map_keys_in_first_appearance_order
           [PStr "b"; PStr "a"; PNone; PStr "b"]
           [PInt 1; PInt 2; PInt 3; PInt 4]).
  reflexivity.
Defined.

(** ** The normalizer: what it raises *)

Lemma map_pairs_unhashable (ks1 ks2 items : list pyval) (k : pyval)
    (d0 : dict) :
  Forall (fun k0 => hashable k0 = true) ks1 ->
  hashable k = false ->
  (length ks1 < length items)%nat ->
  map_pairs (ks1 ++ k :: ks2) items d0 = Raise TypeError.
Proof.
  intros Hks Hk. revert items d0.
  induction Hks as [|k1 ks1 Hk1 _ IH]; intros items d0 Hlen.
  - cbn [app map_pairs].
    assert (py_is_None k = false) as -> by (destruct k; try reflexivity; discriminate).
    destruct items as [|item items]; [simpl in Hlen; lia|].
    unfold dict_setitem. rewrite Hk. reflexivity.
  - cbn [app map_pairs]. destruct items as [|item items]; [simpl in Hlen; lia|].
    cbn [length] in Hlen. cbn [tail].
    destruct (py_is_None k1); [apply IH; lia|].
    unfold dict_setitem. rewrite Hk1. cbn [bind]. apply IH. lia.
Qed.

(** X3: a map key that cannot be hashed (a list, a [dict], or a tuple that
    holds one) makes the normalizer raise [TypeError] when its turn comes:
    this is so when the keys before it can be hashed and the values reach
    its position. *)
Theorem map_unhashable_key_raises (ks1 ks2 items : list pyval) (k : pyval) :
  Forall (fun k0 => hashable k0 = true) ks1 ->
  hashable k = false ->
  (length ks1 < length items)%nat ->
  convert_arrow_value_to_python (MapArray (ks1 ++ k :: ks2) items)
  = Raise TypeError.
Proof.
  intros Hks Hk Hlen. rewrite convert_MapArray.
  rewrite (map_pairs_unhashable ks1 ks2 items k [] Hks Hk Hlen). reflexivity.
Qed.

Lemma map_unhashable_key_raises_witness :
  convert_arrow_value_to_python
    (MapArray ([PInt 1; PNone] ++ PList [PInt 2] :: [PInt 3])
              [PStr "a"; PStr "b"; PStr "c"; PStr "d"])
  = Raise TypeError.
Proof.
  apply (map_unhashable_key_raises [PInt 1; PNone] [PInt 3]
           [PStr "a"; PStr "b"; PStr "c"; PStr "d"] (PList [PInt 2])).
  - repeat constructor.
  - reflexivity.
  - simpl. lia.
Defined.

Lemma struct_fields_child_raises (fs1 fs2 : list (string * value))
    (name : string) (child : value) (e : exn) (d0 : dict)
    (vs : list pyval) :
  mapM (fun f => convert_arrow_value_to_python f.2) (present_fields fs1)
  = Ok vs ->
  is_None child = false ->
  convert_arrow_value_to_python child = Raise e ->
  struct_fields (fs1 ++ (name, child) :: fs2) d0 = Raise e.
Proof.
  revert d0 vs. induction fs1 as [|f fs1 IH]; intros d0 vs Hvs Hnone Hc.
  - cbn [app struct_fields snd]. rewrite Hnone, Hc. reflexivity.
  - cbn [app struct_fields]. rewrite present_fields_cons in Hvs.
    destruct (is_None f.2); [exact (IH d0 vs Hvs Hnone Hc)|].
    cbn [mapM] in Hvs.
    apply bind_inv_Ok in Hvs as (v & Hv & Hvs).
    apply bind_inv_Ok in Hvs as (vs' & Hvs' & _).
    rewrite Hv. cbn [bind]. unfold dict_setitem. cbn [hashable bind].
    exact (IH _ vs' Hvs' Hnone Hc).
Qed.

(** X4: an exception raised while a child of a struct is normalized is the
    exception of the struct: when the fields before it normalize and no
    two field names are the same, the struct raises what the child
    raises, and no [dict] is returned. *)
Theorem struct_child_exception_propagates (fs1 fs2 : list (string * value))
    (name : string) (child : value) (e : exn) (vs : list pyval) :
  NoDup (map fst (fs1 ++ (name, child) :: fs2)) ->
  mapM (fun f => convert_arrow_value_to_python f.2) (present_fields fs1)
  = Ok vs ->
  convert_arrow_value_to_python child = Raise e ->
  convert_arrow_value_to_python (StructArray (fs1 ++ (name, child) :: fs2))
  = Raise e.
Proof.
  intros Hnd Hvs Hc. rewrite (convert_StructArray _ Hnd).
  rewrite (struct_fields_child_raises fs1 fs2 name child e [] vs Hvs);
    [reflexivity | | exact Hc].
  destruct child as [[]| | | | | |]; try reflexivity. discriminate Hc.
Qed.

Lemma struct_child_exception_propagates_witness :
  convert_arrow_value_to_python
    (StructArray ([("a", Array [PInt 1])]
                  ++ ("m", MapArray [PInt 1; PInt 2] [PStr "x"])
                  :: [("c", Array [PInt 3])]))
  = Raise IndexError.
Proof.
  apply (struct_child_exception_propagates
           [("a", Array [PInt 1])] [("c", Array [PInt 3])] "m"
           (MapArray [PInt 1; PInt 2] [PStr "x"]) IndexError [PInt 1]).
  - distinct_names.
  - reflexivity.
  - reflexivity.
Defined.

(** ** The serializer: one line for each row *)

Lemma printable_app (s t : string) :
  printable (s +:+ t) = printable s && printable t.
Proof.
  induction s as [|c s IH]; [reflexivity|].
  change ((32 <=? nat_of_ascii c)%nat && printable (s +:+ t)
          = (32 <=? nat_of_ascii c)%nat && printable s && printable t).
  rewrite IH, andb_assoc. reflexivity.
Qed.

Lemma printable_escape_char (c : ascii) : printable (escape_char c) = true.
Proof. destruct c as [[] [] [] [] [] [] [] []]; vm_compute; reflexivity. Qed.

Lemma printable_escape (s : string) : printable (escape s) = true.
Proof.
  induction s as [|c s IH]; [reflexivity|].
  cbn [escape]. rewrite printable_app, printable_escape_char, IH. reflexivity.
Qed.

Lemma printable_encode_basestring (s : string) :
  printable (encode_basestring s) = true.
Proof.
  unfold encode_basestring. cbn [printable].
  rewrite printable_app, printable_escape. reflexivity.
Qed.

Lemma printable_uint (d : Decimal.uint) :
  printable (NilEmpty.string_of_uint d) = true.
Proof. induction d; cbn [NilEmpty.string_of_uint printable]; auto. Qed.

Lemma printable_int_str (n : Z) : printable (int_str n) = true.
Proof.
  unfold int_str, NilZero.string_of_int, NilZero.string_of_uint.
  destruct (Z.to_int n) as [d|d]; destruct d;
    cbn [printable]; rewrite ?printable_uint; reflexivity.
Qed.

Lemma printable_join (sep : string) (chunks : list string) :
  printable sep = true ->
  Forall (fun c => printable c = true) chunks ->
  printable (join sep chunks) = true.
Proof.
  intros Hsep H. induction H as [|c rest Hc _ IH]; [reflexivity|].
  cbn [join]. destruct rest as [|c' rest']; [exact Hc|].
  rewrite !printable_app, Hc, Hsep. exact IH.
Qed.

Lemma mapM_Forall {A B : Type} (f : A -> result B) (Q : B -> Prop)
    (l : list A) (ys : list B) :
  Forall (fun x => forall y, f x = Ok y -> Q y) l ->
  mapM f l = Ok ys -> Forall Q ys.
Proof.
  intros H. revert ys. induction H as [|x l Hx _ IH]; intros ys E.
  - inversion E; subst. constructor.
  - cbn [mapM] in E.
    apply bind_inv_Ok in E as (y & Hy & E).
    apply bind_inv_Ok in E as (ys' & Hys & E).
    inversion E; subst ys; clear E. constructor; auto.
Qed.

Lemma printable_json_key (k : pyval) (t : string) :
  json_key k = Ok t -> printable (encode_basestring t) = true.
Proof. intros _. apply printable_encode_basestring. Qed.

(** What [json.dumps] returns holds no control character. *)
Lemma printable_json_dumps (o : pyval) (s : string) :
  json_dumps o = Ok s -> printable s = true.
Proof.
  revert s.
  induction o as [ | b | n | t | t | elts IH | elts IH | entries IH ]
    using pyval_nested_ind; intros s H; cbn [json_dumps] in H.
  - inversion H; subst. reflexivity.
  - destruct b; inversion H; subst; reflexivity.
  - inversion H; subst. apply printable_int_str.
  - inversion H; subst. apply printable_encode_basestring.
  - inversion H; subst. apply printable_encode_basestring.
  - apply bind_inv_Ok in H as (chunks & Hc & H). inversion H; subst; clear H.
    rewrite !printable_app, printable_join; [reflexivity | reflexivity|].
    exact (mapM_Forall _ _ _ _ IH Hc).
  - apply bind_inv_Ok in H as (chunks & Hc & H). inversion H; subst; clear H.
    rewrite !printable_app, printable_join; [reflexivity | reflexivity|].
    exact (mapM_Forall _ _ _ _ IH Hc).
  - apply bind_inv_Ok in H as (chunks & Hc & H). inversion H; subst; clear H.
    rewrite !printable_app, printable_join; [reflexivity | reflexivity|].
    refine (mapM_Forall _ _ _ _ _ Hc).
    eapply Forall_impl; [exact IH|]. intros kv [_ Hv] y Hy.
    apply bind_inv_Ok in Hy as (k & Hk & Hy).
    apply bind_inv_Ok in Hy as (v & Hv' & Hy). inversion Hy; subst; clear Hy.
    rewrite !printable_app, printable_encode_basestring, (Hv v Hv').
    reflexivity.
Qed.

(** X5: a row is written as one line.  The text [json.dumps] gives for
    the row holds no control character, hence no line break (a line
    break inside a string is written as a backslash and an [n]); the line
    written is this text with one line break after it. *)
Theorem row_line_is_one_line (table : Table) (i : nat) (line : string) :
  row_line table i = Ok line ->
  exists json_line,
    line = json_line +:+ LF /\ printable json_line = true
    /\ printable LF = false.
Proof.
  unfold row_line. intros H.
  apply bind_inv_Ok in H as (row_dict & _ & H).
  apply bind_inv_Ok in H as (json_line & Hj & H). inversion H; subst; clear H.
  exists json_line. split; [reflexivity|].
  split; [exact (printable_json_dumps _ _ Hj) | reflexivity].
Qed.

Lemma row_line_is_one_line_witness :
  exists json_line,
    quoted "{'id': 1, 'tags': [[10, 'x'], [20, 'y']]}" +:+ LF
    = json_line +:+ LF
    /\ printable json_line = true /\ printable LF = false.
Proof.
  apply (row_line_is_one_line tags_table 0). reflexivity.
Defined.

(** ** The row emitter on a table of the cells modelled *)

Lemma append_assoc (s t u : string) : (s +:+ t) +:+ u = s +:+ (t +:+ u).
Proof.
  induction s as [|c s IH]; [reflexivity|].
  change (String c ((s +:+ t) +:+ u) = String c (s +:+ (t +:+ u))).
  f_equal. exact IH.
Qed.

Lemma append_nil_r (s : string) : s +:+ EmptyString = s.
Proof.
  induction s as [|c s IH]; [reflexivity|].
  change (String c (s +:+ EmptyString) = String c s). f_equal. exact IH.
Qed.

(** The loop over the rows, when every row can be written and when one
    cannot. *)
Lemma write_rows_all (table : Table) (rows : list nat) (lines : list string)
    (f : string) :
  mapM (row_line table) rows = Ok lines ->
  write_rows table rows f = (f +:+ lines_text lines, Ok tt).
Proof.
  revert lines f. induction rows as [|i rows IH]; intros lines f H.
  - inversion H; subst. cbn [write_rows lines_text].
    rewrite append_nil_r. reflexivity.
  - cbn [mapM] in H.
    apply bind_inv_Ok in H as (line & Hl & H).
    apply bind_inv_Ok in H as (rest & Hr & H). inversion H; subst; clear H.
    cbn [write_rows lines_text]. rewrite Hl, (IH rest _ Hr), append_assoc.
    reflexivity.
Qed.

Lemma write_rows_until (table : Table) (rows1 rows2 : list nat) (i : nat)
    (lines : list string) (e : exn) (f : string) :
  mapM (row_line table) rows1 = Ok lines ->
  row_line table i = Raise e ->
  write_rows table (rows1 ++ i :: rows2) f = (f +:+ lines_text lines, Raise e).
Proof.
  revert lines f. induction rows1 as [|j rows1 IH]; intros lines f H He.
  - inversion H; subst. cbn [app write_rows lines_text].
    rewrite He, append_nil_r. reflexivity.
  - cbn [mapM] in H.
    apply bind_inv_Ok in H as (line & Hl & H).
    apply bind_inv_Ok in H as (rest & Hr & H). inversion H; subst; clear H.
    cbn [app write_rows lines_text]. rewrite Hl, (IH rest _ Hr He), append_assoc.
    reflexivity.
Qed.



Lemma field_found {A : Type} (all : list (string * A)) (name : string)
    (child : A) :
  NoDup (map fst all) -> (name, child) ∈ all -> field all name = Ok child.
Proof.
  intros Hnd Hin.
  pose proof (field_unique (fun x : A => x) all name child Hnd Hin) as H.
  cbv beta in H.
  replace (map (fun f : string * A => (f.1, f.2)) all) with all in H;
    [exact H|].
  clear. induction all as [|[n c] all IH]; [reflexivity|].
  cbn [map fst snd]. rewrite <- IH. reflexivity.
Qed.

Lemma mapM_ok {A B : Type} (f : A -> result B) (l : list A) :
  Forall (fun x => exists y, f x = Ok y) l -> exists ys, mapM f l = Ok ys.
Proof.
  induction 1 as [|x l [y Hy] _ [ys IH]]; [exists []; reflexivity|].
  exists (y :: ys). cbn [mapM]. rewrite Hy, IH. reflexivity.
Qed.

(** Whatever [as_py()] gives for a cell, [json.dumps] can write. *)
Lemma as_py_serializable (a : arrow_data) :
  exists s, json_dumps (as_py a) = Ok s.
Proof.
  induction a as [ | b | n | s | elts IH | pairs IH ] using arrow_nested_ind;
    cbn [as_py json_dumps].
  - eauto.
  - destruct b; eauto.
  - eauto.
  - eauto.
  - destruct (mapM_ok json_dumps (map as_py elts)) as [chunks Hc].
    + apply Forall_fmap. exact IH.
    + rewrite Hc. cbn [bind]. eauto.
  - destruct (mapM_ok json_dumps
                (map (fun kv : arrow_data * arrow_data =>
                        PTuple [as_py kv.1; as_py kv.2]) pairs))
      as [chunks Hc].
    + apply Forall_fmap. eapply Forall_impl; [exact IH|].
      intros kv [[k Hk] [v Hv]]. unfold compose. cbn [json_dumps mapM].
      rewrite Hk. cbn [bind]. rewrite Hv. cbn [bind]. eauto.
    + rewrite Hc. cbn [bind]. eauto.
Qed.

Lemma row_serializable (names : list string) (cells : list arrow_data) :
  exists s, json_dumps (PDict (zip (map PStr names) (map as_py cells))) = Ok s.
Proof.
  cbn [json_dumps].
  destruct (mapM_ok
              (fun kv : pyval * pyval =>
                 k <- json_key kv.1 ;;
                 v <- json_dumps kv.2 ;;
                 Ok (encode_basestring k +:+ ": " +:+ v))
              (zip (map PStr names) (map as_py cells))) as [chunks Hc].
  - revert cells. induction names as [|n names IH]; intros [|c cells];
      cbn [map zip zip_with]; try constructor; [|apply IH].
    cbn [fst snd json_key bind].
    destruct (as_py_serializable c) as [v Hv]. rewrite Hv. cbn [bind]. eauto.
  - rewrite Hc. cbn [bind]. eauto.
Qed.

(** The [dict] of a row, column by column. *)
Lemma row_cells_from (table : Table) (i : nat) (pre rest : list string)
    (cpre crest : list (list arrow_data)) :
  column_names table = pre ++ rest ->
  columns table = cpre ++ crest ->
  length pre = length cpre -> length rest = length crest ->
  NoDup (column_names table) ->
  Forall (fun col => (i < length col)%nat) (columns table) ->
  fold_left (row_cell table i) rest
    (Ok (zip (map PStr pre)
             (map (fun col => as_py (default ANull (col !! i))) cpre)))
  = Ok (row_as_py table i).
Proof.
  intros Hn Hc Hlp Hlr Hnd Hin. unfold row_as_py. rewrite Hn, Hc.
  revert pre cpre crest Hn Hc Hlp Hlr.
  induction rest as [|n rest IH]; intros pre cpre crest Hn Hc Hlp Hlr.
  - destruct crest; [|discriminate Hlr]. rewrite !app_nil_r. reflexivity.
  - destruct crest as [|c crest]; [discriminate Hlr|].
    cbn [fold_left]. unfold row_cell at 2. cbn [bind].
    assert (Hfield : table_getitem table n = Ok c).
    { unfold table_getitem. apply field_found.
      - rewrite fst_zip; [exact Hnd|]. rewrite Hn, Hc, !length_app.
        cbn [length] in *. lia.
      - rewrite Hn, Hc. rewrite zip_with_app by exact Hlp.
        apply elem_of_app. right. left. }
    rewrite Hfield. cbn [bind].
    assert (Hcell : exists cell, c !! i = Some cell).
    { apply lookup_lt_is_Some. rewrite Forall_forall in Hin. apply Hin.
      rewrite Hc. apply elem_of_app. right. left. }
    destruct Hcell as [cell Hcell].
    unfold chunked_getitem, getitem. rewrite Hcell. cbn [bind].
    rewrite convert_Scalar. cbn [bind]. unfold dict_setitem. cbn [hashable].
    rewrite dict_store_fresh.
    + replace (zip (map PStr pre)
                   (map (fun col => as_py (default ANull (col !! i))) cpre)
               ++ [(PStr n, as_py cell)])
        with (zip (map PStr (pre ++ [n]))
                  (map (fun col => as_py (default ANull (col !! i)))
                       (cpre ++ [c]))).
      * replace (pre ++ n :: rest) with ((pre ++ [n]) ++ rest)
          by (rewrite <- app_assoc; reflexivity).
        replace (cpre ++ c :: crest) with ((cpre ++ [c]) ++ crest)
          by (rewrite <- app_assoc; reflexivity).
        apply IH.
        -- rewrite Hn, <- app_assoc. reflexivity.
        -- rewrite Hc, <- app_assoc. reflexivity.
        -- rewrite !length_app. cbn [length]. lia.
        -- cbn [length] in Hlr. lia.
      * rewrite !map_app. rewrite zip_with_app
          by (rewrite !length_map; exact Hlp).
        cbn [map zip zip_with]. rewrite Hcell. reflexivity.
    + intros k0 Hk0. rewrite fst_zip in Hk0
        by (rewrite !length_map; lia).
      apply list_elem_of_fmap in Hk0 as (p & -> & Hp).
      cbn [key_eqb]. apply String.eqb_neq. intros ->.
      rewrite Hn in Hnd. apply NoDup_app in Hnd as (_ & Hdis & _).
      apply (Hdis n Hp). left.
Qed.

(** The line of a row of a table as the reader delivers it. *)
Lemma row_line_well_formed (table : Table) (i : nat) :
  well_formed table -> (i < num_rows table)%nat ->
  exists s,
    json_dumps (PDict (row_as_py table i)) = Ok s
    /\ row_line table i = Ok (s +:+ LF).
Proof.
  intros (Hnd & Hlen & Hcols) Hi.
  destruct (row_serializable (column_names table)
              (map (fun col => default ANull (col !! i)) (columns table)))
    as [s Hs].
  rewrite map_map in Hs. exists s. split; [exact Hs|].
  assert (Hrow : fold_left (row_cell table i) (column_names table) (Ok [])
                 = Ok (row_as_py table i)).
  { apply (row_cells_from table i [] (column_names table) [] (columns table));
      try reflexivity; try assumption; [symmetry; exact Hlen|].
    eapply Forall_impl; [exact Hcols|]. intros col ->. exact Hi. }
  unfold row_line. rewrite Hrow. cbn [bind]. unfold row_as_py.
  rewrite Hs. reflexivity.
Qed.

Lemma mapM_seq {B : Type} (f : nat -> result B) (Q : nat -> B -> Prop)
    (a n : nat) :
  (forall i, (a <= i < a + n)%nat -> exists y, f i = Ok y /\ Q i y) ->
  exists ys,
    mapM f (seq a n) = Ok ys /\ length ys = n
    /\ forall i y, ys !! i = Some y -> Q (a + i)%nat y.
Proof.
  revert a. induction n as [|n IH]; intros a H.
  - exists []. repeat split. intros i y Hy. inversion Hy.
  - destruct (H a) as (y & Hy & HQ); [lia|].
    destruct (IH (S a)) as (ys & Hys & Hlen & HQs);
      [intros i Hi; apply H; lia|].
    exists (y :: ys). cbn [seq mapM]. rewrite Hy, Hys. cbn [bind length].
    split; [reflexivity|]. split; [lia|].
    intros [|i] z Hz; cbn in Hz.
    + inversion Hz; subst. rewrite Nat.add_0_r. exact HQ.
    + replace (a + S i)%nat with (S a + i)%nat by lia. exact (HQs i z Hz).
Qed.

(** X7: a table of nulls, booleans, integers, strings, and lists and
    maps of these (the cells of [arrow_data], on which [as_py()] raises
    nothing), with no column name twice and every column of [num_rows]
    cells, is always converted: no exception, the return value is
    [num_rows], and the file holds one line for each row, in order.  The
    line of row [i] is what [json.dumps] gives for the [dict] of the
    column names with the [as_py()] of the cells: between [as_py()] and
    [json.dumps] the normalizer changes nothing.  Nothing is said of a
    table with cells of another type, whose [as_py()] can raise. *)
Theorem well_formed_table_converted (parquet_file : ParquetFile)
    (table : Table) (jsonl_file : string) (fs : gmap string string) :
  read parquet_file = Ok table ->
  well_formed table ->
  exists lines,
    convert_parquet_to_jsonl parquet_file jsonl_file fs
    = (<[jsonl_file := lines_text lines]> fs, Ok (num_rows table))
    /\ length lines = num_rows table
    /\ forall i line,
         lines !! i = Some line ->
         exists s,
           json_dumps (PDict (row_as_py table i)) = Ok s
           /\ line = s +:+ LF.
Proof.
  intros Hread Hwf.
  destruct (mapM_seq (row_line table)
              (fun i line =>
                 exists s, json_dumps (PDict (row_as_py table i)) = Ok s
                           /\ line = s +:+ LF)
              0 (num_rows table)) as (lines & Hlines & Hlen & HQ).
  - intros i Hi.
    destruct (row_line_well_formed table i Hwf) as (s & Hs & Hl); [lia|].
    exists (s +:+ LF). split; [exact Hl|]. exists s. auto.
  - exists lines. split; [|split; [exact Hlen | exact HQ]].
    unfold convert_parquet_to_jsonl. rewrite Hread.
    rewrite (write_rows_all table _ lines EmptyString Hlines). reflexivity.
Qed.

Lemma well_formed_table_converted_witness :
  exists lines,
    convert_parquet_to_jsonl tags_file "out/tags.jsonl" ∅
    = (<["out/tags.jsonl" := lines_text lines]> ∅, Ok (num_rows tags_table))
    /\ length lines = num_rows tags_table
    /\ forall i line,
         lines !! i = Some line ->
         exists s,
           json_dumps (PDict (row_as_py tags_table i)) = Ok s
           /\ line = s +:+ LF.
Proof.
  apply (well_formed_table_converted tags_file tags_table "out/tags.jsonl" ∅).
  - reflexivity.
  - split; [distinct_names|]. split; [reflexivity|].
    repeat constructor.
Defined.

(** ** The row emitter on a table with a column name used twice *)

Lemma row_cell_raised (table : Table) (i : nat) (e : exn) (name : string) :
  row_cell table i (Raise e) name = Raise e.
Proof. reflexivity. Qed.

Lemma filter_zip_names {A : Type} (n : string) (names : list string)
    (cols : list A) :
  length cols = length names ->
  length (filter (fun f : string * A => String.eqb f.1 n = true)
                 (zip names cols))
  = length (filter (fun m : string => String.eqb m n = true) names).
Proof.
  revert cols. induction names as [|m names IH]; intros [|c cols] Hlen;
    try discriminate Hlen; [reflexivity|].
  cbn [zip zip_with]. destruct (String.eqb m n) eqn:E.
  - rewrite !filter_cons_True by exact E. cbn [length].
    rewrite (IH cols) by (cbn [length] in Hlen; lia). reflexivity.
  - rewrite !filter_cons_False by (cbn [fst]; rewrite E; discriminate).
    apply IH. cbn [length] in Hlen. lia.
Qed.

Lemma field_twice {A : Type} (n : string) (l1 l2 l3 : list string)
    (cols : list A) :
  length cols = length (l1 ++ n :: l2 ++ n :: l3) ->
  field (zip (l1 ++ n :: l2 ++ n :: l3) cols) n = Raise KeyError.
Proof.
  intros Hlen. unfold field.
  pose proof (filter_zip_names n _ cols Hlen) as H.
  rewrite filter_app, filter_cons_True, filter_app, filter_cons_True in H
    by apply String.eqb_refl.
  rewrite !length_app in H. cbn [length] in H. rewrite length_app in H.
  cbn [length] in H.
  destruct (filter _ (zip _ cols)) as [|x [|y l]]; cbn [length] in H;
    try reflexivity; lia.
Qed.

(** A round for one column raises [KeyError] or stores a cell. *)
Lemma row_cell_step (table : Table) (i : nat) (acc : dict) (name : string) :
  length (columns table) = length (column_names table) ->
  Forall (fun col => (i < length col)%nat) (columns table) ->
  row_cell table i (Ok acc) name = Raise KeyError
  \/ exists acc', row_cell table i (Ok acc) name = Ok acc'.
Proof.
  intros Hlen Hcols. unfold row_cell, table_getitem. cbn [bind].
  destruct (field _ name) as [col|e] eqn:E.
  - right. apply field_elem in E.
    assert (Hcol : col ∈ columns table).
    { apply list_elem_of_lookup in E as [j Hj].
      apply lookup_zip_with_Some in Hj as (x & y & Hxy & _ & Hy).
      inversion Hxy; subst. apply list_elem_of_lookup. eauto. }
    rewrite Forall_forall in Hcols.
    destruct (lookup_lt_is_Some_2 col i (Hcols col Hcol)) as [cell Hcell].
    cbn [bind]. unfold chunked_getitem, getitem. rewrite Hcell. cbn [bind].
    rewrite convert_Scalar. cbn [bind]. unfold dict_setitem. cbn [hashable].
    eauto.
  - left. unfold field in E.
    destruct (filter _ _) as [|x [|y l]]; inversion E; reflexivity.
Qed.

Lemma row_cells_name_twice (table : Table) (i : nat) (n : string)
    (l1 l2 l3 rest : list string) (acc : dict) :
  column_names table = l1 ++ n :: l2 ++ n :: l3 ->
  length (columns table) = length (column_names table) ->
  Forall (fun col => (i < length col)%nat) (columns table) ->
  n ∈ rest ->
  fold_left (row_cell table i) rest (Ok acc) = Raise KeyError.
Proof.
  intros Hn Hlen Hcols. revert acc.
  induction rest as [|m rest IH]; intros acc Hin; [inversion Hin|].
  cbn [fold_left].
  destruct (row_cell_step table i acc m Hlen Hcols) as [E|[acc' E]].
  - rewrite E. apply fold_left_raised. intros; reflexivity.
  - rewrite E. apply IH. apply elem_of_cons in Hin as [->|Hin]; [|exact Hin].
    exfalso. unfold row_cell, table_getitem in E. rewrite Hn in E, Hlen.
    rewrite (field_twice m l1 l2 l3 (columns table) Hlen) in E.
    discriminate E.
Qed.

(** X8: a table in which a column name is used twice cannot be
    converted: [table[col_name]] raises [KeyError] for that name in the
    first row, so, when there is a row and the columns are as long as the
    table, the conversion raises [KeyError] and leaves an empty output
    file.  The later column never overwrites the earlier one. *)
Theorem column_name_twice_raises (parquet_file : ParquetFile)
    (table : Table) (jsonl_file : string) (fs : gmap string string)
    (n : string) (l1 l2 l3 : list string) :
  read parquet_file = Ok table ->
  column_names table = l1 ++ n :: l2 ++ n :: l3 ->
  length (columns table) = length (column_names table) ->
  Forall (fun col => length col = num_rows table) (columns table) ->
  (0 < num_rows table)%nat ->
  convert_parquet_to_jsonl parquet_file jsonl_file fs
  = (<[jsonl_file := EmptyString]> fs, Raise KeyError).
Proof.
  intros Hread Hn Hlen Hcols Hrows.
  assert (Hrow : row_line table 0 = Raise KeyError).
  { unfold row_line.
    rewrite (row_cells_name_twice table 0 n l1 l2 l3 (column_names table) []);
      try assumption; [reflexivity| |].
    - eapply Forall_impl; [exact Hcols|]. intros col ->. exact Hrows.
    - rewrite Hn. apply elem_of_app. right. left. }
  unfold convert_parquet_to_jsonl. rewrite Hread.
  destruct (num_rows table) as [|k]; [lia|]. cbn [seq].
  pose proof (write_rows_until table [] (seq 1 k) 0 [] KeyError EmptyString
                eq_refl Hrow) as H.
  cbn [app] in H. rewrite H. reflexivity.
Qed.

Lemma column_name_twice_raises_witness :
  convert_parquet_to_jsonl
    {| stem := "b";
       read := Ok {| column_names := [] ++ "a" :: ["x"] ++ "a" :: [];
                     columns := [[AInt 1]; [AInt 2]; [AInt 3]];
                     num_rows := 1 |} |}
    "out/b.jsonl" ∅
  = (<["out/b.jsonl" := EmptyString]> ∅, Raise KeyError).
Proof.
  apply (column_name_twice_raises _
           {| column_names := [] ++ "a" :: ["x"] ++ "a" :: [];
              columns := [[AInt 1]; [AInt 2]; [AInt 3]];
              num_rows := 1 |}
           "out/b.jsonl" ∅ "a" [] ["x"] []).
  - reflexivity.
  - reflexivity.
  - reflexivity.
  - repeat constructor.
  - simpl. lia.
Defined.

(** ** The batch driver: what it writes and what it leaves *)

Lemma convert_unreadable (pf : ParquetFile) (jsonl_file : string)
    (fs : gmap string string) (e : exn) :
  read pf = Raise e ->
  convert_parquet_to_jsonl pf jsonl_file fs = (fs, Raise e).
Proof. intros H. unfold convert_parquet_to_jsonl. rewrite H. reflexivity. Qed.

(** X9: the batch changes only the output files of the inputs it could
    read.  With input names that differ, a path that is not the output
    path of an input, or is the output path of an input that could not be
    read, holds after the batch what it held before. *)
Theorem batch_leaves_other_files (parquet_files : list ParquetFile)
    (output_dir : string) (fs : gmap string string) (p : string) :
  NoDup (map stem parquet_files) ->
  (forall pf, pf ∈ parquet_files -> jsonl_path output_dir pf = p ->
              exists e, read pf = Raise e) ->
  files (convert_all_parquet_files parquet_files output_dir fs) !! p
  = fs !! p.
Proof.
  intros Hnd Hp. unfold convert_all_parquet_files.
  destruct (decide (Exists (fun pf => jsonl_path output_dir pf = p)
                           parquet_files)) as [Hex|Hno].
  - apply Exists_exists in Hex as (pf & Hin & Hpath).
    destruct (Hp pf Hin Hpath) as [e He]. subst p.
    rewrite (driver_files_own output_dir parquet_files _ pf Hnd Hin).
    cbn [files]. rewrite (convert_unreadable pf _ fs e He). reflexivity.
  - apply driver_files_other. intros pf Hin Hpath. apply Hno.
    apply Exists_exists. eauto.
Qed.

Lemma batch_leaves_other_files_witness :
  files (convert_all_parquet_files
           [{| stem := "a"; read := Raise ArrowInvalid |}; tags_file]
           "out" {[ "out/a.jsonl" := "old" ]})
    !! "out/a.jsonl"
  = ({[ "out/a.jsonl" := "old" ]} : gmap string string) !! "out/a.jsonl".
Proof.
  apply (batch_leaves_other_files
           [{| stem := "a"; read := Raise ArrowInvalid |}; tags_file]
           "out" {[ "out/a.jsonl" := "old" ]} "out/a.jsonl").
  - distinct_names.
  - intros pf Hin Hpath.
    apply elem_of_cons in Hin as [->|Hin]; [exists ArrowInvalid; reflexivity|].
    apply list_elem_of_singleton in Hin. subst pf. discriminate Hpath.
Defined.

(** X10: the order in which the batch takes the files does not matter to
    what it writes nor to the rows it counts: two lists of the same input
    files, with names that differ, give the same output files and the
    same total. *)
Theorem batch_order_irrelevant (parquet_files parquet_files' : list ParquetFile)
    (output_dir : string) (fs : gmap string string) :
  parquet_files ≡ₚ parquet_files' ->
  NoDup (map stem parquet_files) ->
  files (convert_all_parquet_files parquet_files output_dir fs)
  = files (convert_all_parquet_files parquet_files' output_dir fs)
  /\ total_rows (convert_all_parquet_files parquet_files output_dir fs)
     = total_rows (convert_all_parquet_files parquet_files' output_dir fs).
Proof.
  intros Hperm Hnd.
  assert (Hnd' : NoDup (map stem parquet_files'))
    by (rewrite <- Hperm; exact Hnd).
  unfold convert_all_parquet_files. split.
  - apply map_eq. intros p.
    destruct (decide (Exists (fun pf => jsonl_path output_dir pf = p)
                             parquet_files)) as [Hex|Hno].
    + apply Exists_exists in Hex as (pf & Hin & <-).
      rewrite (driver_files_own output_dir parquet_files _ pf Hnd Hin).
      rewrite (driver_files_own output_dir parquet_files' _ pf Hnd');
        [reflexivity|]. rewrite <- Hperm. exact Hin.
    + rewrite !driver_files_other; [reflexivity| |].
      * intros pf Hin Hpath. apply Hno, Exists_exists.
        exists pf. split; [rewrite Hperm; exact Hin | exact Hpath].
      * intros pf Hin Hpath. apply Hno, Exists_exists. eauto.
  - destruct (driver_counts output_dir parquet_files
                {| files := fs; total_rows := 0; stderr := [] |}) as [H _].
    destruct (driver_counts output_dir parquet_files'
                {| files := fs; total_rows := 0; stderr := [] |}) as [H' _].
    rewrite H, H'. cbn [total_rows]. f_equal.
    rewrite Hperm. reflexivity.
Qed.

Lemma batch_order_irrelevant_witness :
  files (convert_all_parquet_files
           [{| stem := "a"; read := Raise ArrowInvalid |}; tags_file] "out" ∅)
  = files (convert_all_parquet_files
             [tags_file; {| stem := "a"; read := Raise ArrowInvalid |}] "out" ∅)
  /\ total_rows (convert_all_parquet_files
                   [{| stem := "a"; read := Raise ArrowInvalid |}; tags_file]
                   "out" ∅)
     = total_rows (convert_all_parquet_files
                     [tags_file; {| stem := "a"; read := Raise ArrowInvalid |}]
                     "out" ∅).
Proof.
  apply (batch_order_irrelevant
           [{| stem := "a"; read := Raise ArrowInvalid |}; tags_file]
           [tags_file; {| stem := "a"; read := Raise ArrowInvalid |}] "out" ∅).
  - apply Permutation_swap.
  - distinct_names.
Defined.

(** ** The normalizer on the store: the result is a copy *)

Section CopyFacts.
Variable fresh_loc : heap -> loc.
Hypothesis fresh_loc_fresh : forall h, h !! fresh_loc h = None.

Lemma copy_of_mono (h0 g g' : heap) (v : pyval) (l : loc) :
  g ⊆ g' -> copy_of h0 g v l -> copy_of h0 g' v l.
Proof.
  intros Hg. revert l.
  induction v as [ | | | | | elts _ | elts IH | entries IH ]
    using pyval_nested_ind; intros l H; inversion H; subst;
    try discriminate;
    try (apply copy_imm; [assumption | eapply lookup_weaken; eassumption]).
  - eapply copy_list; [assumption | eapply lookup_weaken; eassumption|].
    eapply Forall2_impl_Forall; [exact IH | eassumption].
  - eapply copy_dict; [assumption | eapply lookup_weaken; eassumption|].
    eapply Forall2_impl_Forall; [|eassumption].
    eapply Forall_impl; [exact IH|].
    intros kv [_ Hv] e [Hk Hr]. split; [exact Hk | apply Hv, Hr].
Qed.

Lemma spec_convert_ref_copy (h0 : heap) (v : pyval) :
  forall fuel l g h,
    tuples_immutable v = true ->
    (depth v < fuel)%nat -> g ⊆ h -> h0 ⊆ g -> reads g v l ->
    spec g h (convert_ref fresh_loc fuel l)
         (fun g' r => exists l', r = Ok l' /\ copy_of h0 g' v l').
Proof.
  induction v as [ | | | | | elts _ | elts IH | entries IH ]
    using pyval_nested_ind; intros [|fuel] l g h Ht Hd Hg H0 Hr; try lia;
    cbn [convert_ref]; inversion Hr; subst; try discriminate;
    try (eapply spec_bind;
         [eapply (spec_load g h l _ (fun g1 r => r = Ok (OImm _) /\ g1 = g));
          [exact Hg | eassumption | split; reflexivity]
         | intros g1 e [E _]; discriminate E
         | intros g1 h1 o Hgr [E ->]; inversion E; subst o;
           apply spec_ret; [exact (grows_known _ _ _ _ Hgr)|];
           exists l; split; [reflexivity|];
           apply copy_imm; [first [reflexivity | exact Ht] | assumption]]).
  - eapply spec_bind;
      [eapply (spec_load g h l _ (fun g1 r => r = Ok (OList ls) /\ g1 = g));
       [exact Hg | eassumption | split; reflexivity]
      | intros g1 e [E _]; discriminate E |].
    intros g1 h1 o Hgr [E ->]. inversion E; subst o; clear E.
    eapply spec_bind.
    + apply (spec_mapM_st (convert_ref fresh_loc fuel)
               (fun g v x => h0 ⊆ g /\ reads g v x)
               (fun g v l => copy_of h0 g v l))
        with (vs := elts).
      * intros g2 g2' v x Hg2 [Ha Hb].
        split; [etrans; eassumption | eapply reads_mono; eassumption].
      * intros g2 g2' v x Hg2 Hb. eapply copy_of_mono; eassumption.
      * rewrite Forall_forall in IH. apply Forall_forall.
        intros v Hv x g0 h1' Hg0 [Ha Hx].
        eapply spec_conseq.
        -- apply (IH v Hv); [| |exact Hg0 | exact Ha | exact Hx].
           ++ cbn [tuples_immutable] in Ht.
              rewrite forallb_forall in Ht. apply Ht.
              apply list_elem_of_In. exact Hv.
           ++ pose proof (depth_elem v elts Hv). cbn [depth] in Hd. lia.
        -- intros g' r Hpost. exact Hpost.
      * exact (grows_known _ _ _ _ Hgr).
      * eapply Forall2_impl; [eassumption|]. intros v x Hx. split; assumption.
    + intros g2 e (ls' & E & _). discriminate E.
    + intros g2 h2 ls0 Hgr2 (ls' & E & HF). inversion E; subst ls0; clear E.
      apply (spec_new fresh_loc fresh_loc_fresh);
        [exact (grows_known _ _ _ _ Hgr2)|].
      intros l' Hl'. exists l'. split; [reflexivity|].
      assert (Hgl : g2 !! l' = None)
        by (eapply lookup_weaken_None; [exact Hl' | exact (grows_known _ _ _ _ Hgr2)]).
      eapply copy_list; [|apply lookup_insert_eq|].
      * eapply lookup_weaken_None; [exact Hgl|].
        etrans; [exact H0 | exact (grows_more _ _ _ _ Hgr2)].
      * eapply Forall2_impl; [exact HF|]. intros v' x' Hx'.
        eapply copy_of_mono; [|exact Hx']. apply insert_subseteq, Hgl.
  - eapply spec_bind;
      [eapply (spec_load g h l _ (fun g1 r => r = Ok (ODict es) /\ g1 = g));
       [exact Hg | eassumption | split; reflexivity]
      | intros g1 e [E _]; discriminate E |].
    intros g1 h1 o Hgr [E ->]. inversion E; subst o; clear E.
    eapply spec_bind.
    + apply (spec_mapM_st (convert_ref fresh_loc fuel)
               (fun g (kv : pyval * pyval) x => h0 ⊆ g /\ reads g kv.2 x)
               (fun g (kv : pyval * pyval) l => copy_of h0 g kv.2 l))
        with (vs := entries).
      * intros g2 g2' v x Hg2 [Ha Hb].
        split; [etrans; eassumption | eapply reads_mono; eassumption].
      * intros g2 g2' v x Hg2 Hb. eapply copy_of_mono; eassumption.
      * rewrite Forall_forall in IH. apply Forall_forall.
        intros kv Hkv x g0 h1' Hg0 [Ha Hx].
        eapply spec_conseq.
        -- apply (proj2 (IH kv Hkv)); [| |exact Hg0 | exact Ha | exact Hx].
           ++ cbn [tuples_immutable] in Ht.
              rewrite forallb_forall in Ht. apply (Ht kv).
              apply list_elem_of_In. exact Hkv.
           ++ pose proof (depth_entry kv entries Hkv). cbn [depth] in Hd. lia.
        -- intros g' r Hpost. exact Hpost.
      * exact (grows_known _ _ _ _ Hgr).
      * eapply Forall2_impl;
          [apply (Forall2_values (reads g)); eassumption|].
        intros v x Hx. split; assumption.
    + intros g2 e (ls' & E & _). discriminate E.
    + intros g2 h2 ls0 Hgr2 (ls' & E & HF). inversion E; subst ls0; clear E.
      apply (spec_new fresh_loc fresh_loc_fresh);
        [exact (grows_known _ _ _ _ Hgr2)|].
      intros l' Hl'. exists l'. split; [reflexivity|].
      assert (Hgl : g2 !! l' = None)
        by (eapply lookup_weaken_None; [exact Hl' | exact (grows_known _ _ _ _ Hgr2)]).
      eapply copy_dict; [|apply lookup_insert_eq|].
      * eapply lookup_weaken_None; [exact Hgl|].
        etrans; [exact H0 | exact (grows_more _ _ _ _ Hgr2)].
      * apply (entries_zip (copy_of h0 (<[l' := _]> g2)));
          [eapply Forall2_keys; eassumption|].
        eapply Forall2_impl; [exact HF|]. intros v' x' Hx'.
        eapply copy_of_mono; [|exact Hx']. apply insert_subseteq, Hgl.
Qed.

End CopyFacts.

(** X11: what the normalizer returns for a native object, no tuple of
    which holds a list or a [dict], is a copy.  Every list and [dict] of
    the result, at any depth, is an object that was not in the store
    before the call, the other objects of the result hold no list and no
    [dict], and the store before the call is unchanged: changing the
    result later cannot change the argument.  (A tuple is returned as it
    is by line 68, so a list or a [dict] held by a tuple of the argument
    would be shared with the result; such arguments are left out.) *)
Theorem convert_ref_returns_a_copy (fresh_loc : heap -> loc) (fuel : nat)
    (v : pyval) (l : loc) (h : heap) :
  (forall h, h !! fresh_loc h = None) ->
  reads h v l ->
  tuples_immutable v = true ->
  (depth v < fuel)%nat ->
  exists h' l',
    convert_ref fresh_loc fuel l h = Some (h', Ok l')
    /\ h ⊆ h' /\ copy_of h h' v l'.
Proof.
  intros Hfresh Hr Ht Hd.
  destruct (spec_convert_ref_copy fresh_loc Hfresh h v fuel l h h Ht Hd
              (reflexivity h) (reflexivity h) Hr)
    as (h' & o & g' & E & (Hh & _ & Hk & _) & (l' & -> & Hc)).
  exists h', l'. split; [exact E|]. split; [exact Hh|].
  eapply copy_of_mono; eassumption.
Qed.

Lemma convert_ref_returns_a_copy_witness :
  exists h' l',
    convert_ref first_free 3 1%positive
      {[ 1%positive := OList [2%positive; 3%positive];
         2%positive := OImm (PInt 3);
         3%positive := OImm (PTuple [PInt 10; PStr "x"]) ]}
    = Some (h', Ok l')
    /\ ({[ 1%positive := OList [2%positive; 3%positive];
           2%positive := OImm (PInt 3);
           3%positive := OImm (PTuple [PInt 10; PStr "x"]) ]}
          : heap) ⊆ h'
    /\ copy_of {[ 1%positive := OList [2%positive; 3%positive];
                  2%positive := OImm (PInt 3);
                  3%positive := OImm (PTuple [PInt 10; PStr "x"]) ]}
               h' (PList [PInt 3; PTuple [PInt 10; PStr "x"]]) l'.
Proof.
  apply (convert_ref_returns_a_copy first_free 3
           (PList [PInt 3; PTuple [PInt 10; PStr "x"]]) 1%positive
           {[ 1%positive := OList [2%positive; 3%positive];
              2%positive := OImm (PInt 3);
              3%positive := OImm (PTuple [PInt 10; PStr "x"]) ]}).
  - exact first_free_fresh.
  - eapply reads_list; [reflexivity|].
    constructor; [|constructor; [|constructor]];
      apply reads_imm; reflexivity.
  - reflexivity.
  - simpl. lia.
Defined.

(** ** The normalizer: pairs and wrappers that leave no trace *)

Lemma map_pairs_skip_None (ks1 ks2 is1 is2 : list pyval) (x : pyval)
    (d : dict) :
  length ks1 = length is1 ->
  map_pairs (ks1 ++ PNone :: ks2) (is1 ++ x :: is2) d
  = map_pairs (ks1 ++ ks2) (is1 ++ is2) d.
Proof.
  revert is1 d. induction ks1 as [|k ks1 IH]; intros [|i is1] d Hlen;
    try discriminate Hlen.
  - reflexivity.
  - cbn [app map_pairs tail]. cbn [length] in Hlen.
    destruct (py_is_None k); [apply IH; lia|].
    destruct (dict_setitem d k i) as [r|e]; [|reflexivity].
    cbn [bind]. apply IH. lia.
Qed.

(** X12: a pair of a map whose key is [None] leaves no trace: with or
    without the pair, whatever its value, the normalizer gives the same
    result (the same [dict], or the same exception). *)
Theorem map_None_key_pair_ignored (ks1 ks2 is1 is2 : list pyval)
    (x : pyval) :
  length ks1 = length is1 ->
  convert_arrow_value_to_python
    (MapArray (ks1 ++ PNone :: ks2) (is1 ++ x :: is2))
  = convert_arrow_value_to_python (MapArray (ks1 ++ ks2) (is1 ++ is2)).
Proof.
  intros Hlen. rewrite !convert_MapArray.
  rewrite (map_pairs_skip_None ks1 ks2 is1 is2 x [] Hlen). reflexivity.
Qed.

Lemma map_None_key_pair_ignored_witness :
  convert_arrow_value_to_python
    (MapArray ([PInt 1] ++ PNone :: [PInt 2])
              ([PStr "a"] ++ PStr "lost" :: [PStr "b"]))
  = convert_arrow_value_to_python
      (MapArray ([PInt 1] ++ [PInt 2]) ([PStr "a"] ++ [PStr "b"])).
Proof.
  apply (map_None_key_pair_ignored [PInt 1] [PInt 2] [PStr "a"] [PStr "b"]
           (PStr "lost")).
  reflexivity.
Defined.

(** X13: the unwrapping of an array cannot be undone.  An array of one
    element that is a list of two elements or more gives what the array
    of these elements gives, and an array of one null gives what the
    empty array gives: from the result one cannot tell which it was. *)
Theorem array_unwrapping_ambiguous :
  (forall x y rest,
     convert_arrow_value_to_python (Array [PList (x :: y :: rest)])
     = convert_arrow_value_to_python (Array (x :: y :: rest)))
  /\ convert_arrow_value_to_python (Array [PNone])
     = convert_arrow_value_to_python (Array []).
Proof.
  split; [|reflexivity]. intros x y rest.
  cbn [convert_arrow_value_to_python]. rewrite convert_py_id.
  rewrite map_convert_py_id. reflexivity.
Qed.
